(** * go_tasks: the FixedTaskGroup coordinator

    A small-step model of the package [go_tasks] (files
    [fixed_task_group.go], [task.go] and the later revision of both that
    adds [DoneC] and [ErrTaskCancelled]), and the properties of its
    lifecycle: buffered error channel, wait group, cancellation, and the
    order in which the watcher closes its channels.

    The source is concurrent: every [go func() {...}()] is a goroutine of
    the model, a goroutine is the list of statements it still has to run
    plus its stack of deferred calls, and a schedule (a list of actions)
    picks which goroutine, task body or caller moves next.  Every
    interleaving of the program is a schedule. *)

From Stdlib Require Import ZArith Lia Permutation.
From stdpp Require Import base list strings.

Local Open Scope Z_scope.

(** ** Values of the package *)

(** An [error] value made by [errors.New]: a pointer to a private struct
    holding the text.  [err_addr] stands for the pointer, two calls of
    [errors.New] with the same text give different errors. *)
Record error : Type := mkError { err_addr : nat; err_text : string }.

#[global] Instance error_eq_dec : EqDecision error.
Proof. solve_decision. Defined.

(** [var ErrTaskCancelled = errors.New("task cancelled")] *)
Definition ErrTaskCancelled : error :=
  {| err_addr := 0%nat; err_text := "task cancelled" |}.

(** [type Task func(cancelC <-chan struct{}) error].  The coordinator only
    ever calls a task; the model names a task value by a number and lets
    the schedule decide when its call returns and with what. *)
Definition Task : Type := nat.

(** What a call of a task does in the end: it returns [nil] or an error,
    or it panics. *)
Inductive result : Type :=
| Return (err : option error)
| Fault.

(** The two revisions of [fixed_task_group.go]. *)
Inductive version : Type :=
| V1   (* fixed_task_group.go: ErrC only *)
| V2.  (* the revision with doneC and DoneC() *)

(** [chan error] with a buffer. *)
Record chan : Type := mkChan {
  cap : nat;
  buf : list error;
  closed : bool
}.

(** [type FixedTaskGroup struct].  [doneC] is [None] in the revision that
    has no such field; the two [chan struct{}] are never sent on, only
    closed, so they are their closed flag.  [wg] is the counter of the
    [sync.WaitGroup], [cancelOnce] the done flag of the [sync.Once]. *)
Record FixedTaskGroup : Type := mkGroup {
  tasks : list Task;
  wg : Z;
  doneC : option bool;
  errC : chan;
  cancelC : bool;
  cancelOnce : bool
}.

Definition set_tasks (l : list Task) (g : FixedTaskGroup) : FixedTaskGroup :=
  mkGroup l (wg g) (doneC g) (errC g) (cancelC g) (cancelOnce g).
Definition set_wg (n : Z) (g : FixedTaskGroup) : FixedTaskGroup :=
  mkGroup (tasks g) n (doneC g) (errC g) (cancelC g) (cancelOnce g).
Definition set_doneC (d : option bool) (g : FixedTaskGroup) : FixedTaskGroup :=
  mkGroup (tasks g) (wg g) d (errC g) (cancelC g) (cancelOnce g).
Definition set_errC (c : chan) (g : FixedTaskGroup) : FixedTaskGroup :=
  mkGroup (tasks g) (wg g) (doneC g) c (cancelC g) (cancelOnce g).
Definition set_cancel (c o : bool) (g : FixedTaskGroup) : FixedTaskGroup :=
  mkGroup (tasks g) (wg g) (doneC g) (errC g) c o.

(** ** Statements and goroutines *)

(** The function a goroutine runs. *)
Inductive func : Type :=
| NewFixedTaskGroup_fn            (* the caller, inside the constructor *)
| startTask_fn (task : Task)      (* go func() of startTask *)
| watcher_fn (v : version).       (* go func() of NewFixedTaskGroup *)

(** The statements that occur in the package. *)
Inductive instr : Type :=
| Defer (call : instr)      (* defer call *)
| Go (f : func)             (* go func() { ... }() *)
| Append (task : Task)      (* g.tasks = append(g.tasks, task) *)
| WgAdd (n : Z)             (* g.wg.Add(n) *)
| WgDone                    (* g.wg.Done() *)
| WgWait                    (* tg.wg.Wait() *)
| CallTask (task : Task)    (* if err := task(g.cancelC); err != nil { g.errC <- err } *)
| Await (task : Task)       (* ... the same statement, inside the call *)
| Send (e : error)          (* g.errC <- err *)
| CloseErrC                 (* close(tg.errC) *)
| CloseDoneC.               (* close(tg.doneC) *)

(** [func (g *FixedTaskGroup) startTask(task Task)] *)
Definition startTask (task : Task) : list instr :=
  [ Append task; WgAdd 1; Go (startTask_fn task) ].

(** The statements of NewFixedTaskGroup after the struct literal: the
    [for _, task := range tasks] loop over the argument, then the watcher. *)
Definition NewFixedTaskGroup_body (v : version) (ts : list Task) : list instr :=
  flat_map startTask ts ++ [ Go (watcher_fn v) ].

Definition body (f : func) : list instr :=
  match f with
  | NewFixedTaskGroup_fn => []
  | startTask_fn task => [ Defer WgDone; CallTask task ]
  | watcher_fn V1 => [ WgWait; Defer CloseErrC ]
  | watcher_fn V2 => [ Defer CloseErrC; Defer CloseDoneC; WgWait ]
  end.

Record goroutine : Type := mkGo {
  fn : func;
  code : list instr;       (* statements still to run *)
  defers : list instr;     (* deferred calls, last deferred first *)
  panicking : bool
}.

Definition spawn (f : func) : goroutine := mkGo f (body f) [] false.

(** ** Primitives of the runtime *)

Inductive outcome : Type :=
| Next (g : FixedTaskGroup)
| Blocked
| Panic.

(** [WaitGroup.Add] panics when the counter becomes negative. *)
Definition wg_Add (n : Z) (g : FixedTaskGroup) : outcome :=
  if wg g + n <? 0 then Panic else Next (set_wg (wg g + n) g).

Definition wg_Done (g : FixedTaskGroup) : outcome := wg_Add (-1) g.

Definition wg_Wait (g : FixedTaskGroup) : outcome :=
  if wg g =? 0 then Next g else Blocked.

(** A send on a closed channel panics, a send on a full buffer blocks. *)
Definition send (e : error) (g : FixedTaskGroup) : outcome :=
  let c := errC g in
  if closed c then Panic
  else if (length (buf c) <? cap c)%nat
       then Next (set_errC (mkChan (cap c) (buf c ++ [e]) false) g)
       else Blocked.

(** Closing a closed (or nil) channel panics. *)
Definition close_errC (g : FixedTaskGroup) : outcome :=
  let c := errC g in
  if closed c then Panic else Next (set_errC (mkChan (cap c) (buf c) true) g).

Definition close_doneC (g : FixedTaskGroup) : outcome :=
  match doneC g with
  | Some false => Next (set_doneC (Some true) g)
  | _ => Panic
  end.

(** ** Events *)

Inductive event : Type :=
| EvCall (i : nat) (task : Task)          (* goroutine i calls the task *)
| EvRet (i : nat) (task : Task) (r : result)
| EvSend (i : nat) (e : error)            (* g.errC <- e went through *)
| EvWgDone (i : nat)                      (* g.wg.Done() *)
| EvCloseErrC
| EvCloseDoneC
| EvCloseCancelC
| EvRecv (v : option error)               (* a caller's  err, ok := <-tg.ErrC() *)
| EvDone.                                 (* a caller's  <-tg.DoneC()  returned *)

#[global] Instance result_eq_dec : EqDecision result.
Proof. solve_decision. Defined.
#[global] Instance event_eq_dec : EqDecision event.
Proof. solve_decision. Defined.

(** ** One step of a goroutine *)

(** What a step does: the group, the goroutine itself, goroutines it
    starts, events, and whether the program died. *)
Record effect : Type := mkEffect {
  e_tg : FixedTaskGroup;
  e_self : goroutine;
  e_spawn : list goroutine;
  e_log : list event;
  e_crash : bool
}.

Definition continue (g : goroutine) (k : list instr) : goroutine :=
  mkGo (fn g) k (defers g) (panicking g).

(** A panic abandons the rest of the function; the deferred calls still run. *)
Definition panic (g : goroutine) : goroutine :=
  mkGo (fn g) [] (defers g) true.

Definition prim (i : nat) (o : outcome) (ev : list event)
    (tg : FixedTaskGroup) (g : goroutine) (k : list instr) : option effect :=
  match o with
  | Next tg' => Some (mkEffect tg' (continue g k) [] ev false)
  | Blocked => None
  | Panic => Some (mkEffect tg (panic g) [] [] false)
  end.

Definition step (i : nat) (tg : FixedTaskGroup) (g : goroutine) : option effect :=
  match code g with
  | [] =>
      match defers g with
      | call :: ds =>
          (* the function is over (or panicked): run the last deferred call *)
          Some (mkEffect tg (mkGo (fn g) [call] ds (panicking g)) [] [] false)
      | [] =>
          (* a panic nobody recovered ends the program *)
          if panicking g then Some (mkEffect tg g [] [] true) else None
      end
  | ins :: k =>
      match ins with
      | Defer call =>
          Some (mkEffect tg (mkGo (fn g) k (call :: defers g) (panicking g)) [] [] false)
      | Go f => Some (mkEffect tg (continue g k) [spawn f] [] false)
      | Append task =>
          Some (mkEffect (set_tasks (tasks tg ++ [task]) tg) (continue g k) [] [] false)
      | WgAdd n => prim i (wg_Add n tg) [] tg g k
      | WgDone => prim i (wg_Done tg) [EvWgDone i] tg g k
      | WgWait => prim i (wg_Wait tg) [] tg g k
      | CallTask task =>
          Some (mkEffect tg (continue g (Await task :: k)) [] [EvCall i task] false)
      | Await _ => None
      | Send e => prim i (send e tg) [EvSend i e] tg g k
      | CloseErrC => prim i (close_errC tg) [EvCloseErrC] tg g k
      | CloseDoneC => prim i (close_doneC tg) [EvCloseDoneC] tg g k
      end
  end.

(** The task called by goroutine [i] comes back with [r]. *)
Definition task_returns (i : nat) (r : result) (tg : FixedTaskGroup)
    (g : goroutine) : option effect :=
  match code g with
  | Await task :: k =>
      let g' := match r with
                | Return None => continue g k
                | Return (Some e) => continue g (Send e :: k)
                | Fault => panic g
                end in
      Some (mkEffect tg g' [] [EvRet i task r] false)
  | _ => None
  end.

(** ** Methods called from outside *)

(** [func (g *FixedTaskGroup) Cancel()]: [g.cancelOnce.Do(func() { close(g.cancelC) })].
    [sync.Once] runs the function under its lock and marks itself done
    even when the function panics; the result is the group and whether
    the caller panicked. *)
Definition Cancel (g : FixedTaskGroup) : FixedTaskGroup * list event * bool :=
  if cancelOnce g then (g, [], false)
  else if cancelC g then (set_cancel true true g, [], true)
       else (set_cancel true true g, [EvCloseCancelC], false).

(** [func (g *FixedTaskGroup) ErrC() <-chan error] *)
Definition ErrC (g : FixedTaskGroup) : chan := errC g.

(** [func (g *FixedTaskGroup) DoneC() <-chan struct{}] *)
Definition DoneC (g : FixedTaskGroup) : option bool := doneC g.

(** [err, ok := <-c]: the oldest buffered value; on an empty closed channel
    the zero value with [ok = false]; on an empty open channel it blocks. *)
Definition recv (c : chan) : option (option error * chan) :=
  match buf c with
  | e :: b => Some (Some e, mkChan (cap c) b (closed c))
  | [] => if closed c then Some (None, c) else None
  end.

(** ** The program *)

Record world : Type := mkWorld {
  tg : FixedTaskGroup;
  gs : list goroutine;       (* goroutine 0 is the caller of the constructor *)
  crashed : bool;
  log : list event           (* newest first *)
}.

(** [func NewFixedTaskGroup(tasks ...Task) *FixedTaskGroup]: the struct
    literal is evaluated, the rest of the body is what goroutine 0 still
    has to run. *)
Definition NewFixedTaskGroup (v : version) (ts : list Task) : world :=
  {| tg := {| tasks := ts;
              wg := 0;
              doneC := match v with V1 => None | V2 => Some false end;
              errC := mkChan (length ts) [] false;
              cancelC := false;
              cancelOnce := false |};
     gs := [ mkGo NewFixedTaskGroup_fn (NewFixedTaskGroup_body v ts) [] false ];
     crashed := false;
     log := [] |}.

Inductive action : Type :=
| AGo (i : nat)                     (* goroutine i runs one statement *)
| ATaskRet (i : nat) (r : result)   (* the task called by goroutine i ends *)
| ACancel                           (* somebody calls tg.Cancel() *)
| ARecvErr                          (* somebody receives from tg.ErrC() *)
| ARecvDone.                        (* somebody receives from tg.DoneC() *)

Definition apply_effect (i : nat) (eff : effect) (w : world) : world :=
  {| tg := e_tg eff;
     gs := <[i := e_self eff]> (gs w) ++ e_spawn eff;
     crashed := e_crash eff;
     log := e_log eff ++ log w |}.

(** [exec w a] is [None] when [a] cannot move in [w]: the goroutine is
    blocked or over, or the program died. *)
Definition exec (w : world) (a : action) : option world :=
  if crashed w then None else
  match a with
  | AGo i =>
      match gs w !! i with
      | Some g => option_map (fun eff => apply_effect i eff w) (step i (tg w) g)
      | None => None
      end
  | ATaskRet i r =>
      match gs w !! i with
      | Some g => option_map (fun eff => apply_effect i eff w) (task_returns i r (tg w) g)
      | None => None
      end
  | ACancel =>
      let '(tg', ev, p) := Cancel (tg w) in
      Some (mkWorld tg' (gs w) p (ev ++ log w))
  | ARecvErr =>
      match recv (ErrC (tg w)) with
      | Some (v, c) => Some (mkWorld (set_errC c (tg w)) (gs w) false (EvRecv v :: log w))
      | None => None
      end
  | ARecvDone =>
      match DoneC (tg w) with
      | Some true => Some (mkWorld (tg w) (gs w) false (EvDone :: log w))
      | _ => None
      end
  end.

Fixpoint run (sched : list action) (w : world) : option world :=
  match sched with
  | [] => Some w
  | a :: rest =>
      match exec w a with
      | Some w' => run rest w'
      | None => None
      end
  end.

(** The worlds the program can be in. *)
Definition reachable (v : version) (ts : list Task) (w : world) : Prop :=
  exists sched, run sched (NewFixedTaskGroup v ts) = Some w.

(** ** Counting what is still to happen *)

(** Pending [wg.Done()] calls, also those deferred and those of a
    goroutine not started yet. *)
Fixpoint dn_i (i : instr) : Z :=
  match i with
  | WgDone => 1
  | Defer c => dn_i c
  | Go (startTask_fn _) => 1
  | _ => 0
  end.

(** Pending [wg.Add(n)]. *)
Definition ad_i (i : instr) : Z :=
  match i with WgAdd n => n | _ => 0 end.

(** Pending sends on [errC]: a task not yet called or still running may
    end in one. *)
Definition sn_i (i : instr) : Z :=
  match i with
  | Send _ | CallTask _ | Await _ => 1
  | Go (startTask_fn _) => 1
  | _ => 0
  end.

(** Pending [close(errC)] and [close(doneC)]. *)
Fixpoint ce_i (i : instr) : Z :=
  match i with
  | CloseErrC => 1
  | Defer c => ce_i c
  | Go (watcher_fn _) => 1
  | _ => 0
  end.

Fixpoint cd_i (i : instr) : Z :=
  match i with
  | CloseDoneC => 1
  | Defer c => cd_i c
  | Go (watcher_fn V2) => 1
  | _ => 0
  end.

Definition wt_i (i : instr) : Z :=
  match i with WgWait => 1 | _ => 0 end.

Definition weigh (f : instr -> Z) (l : list instr) : Z :=
  foldr (fun i a => f i + a) 0 l.

Definition measure (f : instr -> Z) (g : goroutine) : Z :=
  weigh f (code g) + weigh f (defers g).

Definition dn := measure dn_i.
Definition ad := measure ad_i.
Definition sn := measure sn_i.
Definition ce := measure ce_i.
Definition cd := measure cd_i.

(** A goroutine that got past [wg.Wait()] and still has [errC] to close. *)
Definition arm (g : goroutine) : Z :=
  if measure wt_i g =? 0 then ce g else 0.

Definition total (f : goroutine -> Z) (l : list goroutine) : Z :=
  foldr (fun g a => f g + a) 0 l.

Definition b2z (b : bool) : Z := if b then 1 else 0.

(** ** The states a goroutine of the package goes through *)

Inductive shape_task (t : Task) : list instr -> list instr -> bool -> Prop :=
| T_start : shape_task t [Defer WgDone; CallTask t] [] false
| T_call : shape_task t [CallTask t] [WgDone] false
| T_await : shape_task t [Await t] [WgDone] false
| T_send e : shape_task t [Send e] [WgDone] false
| T_over p : shape_task t [] [WgDone] p
| T_done p : shape_task t [WgDone] [] p
| T_exit p : shape_task t [] [] p.

Inductive shape_watch : version -> list instr -> list instr -> Prop :=
| A_wait : shape_watch V1 [WgWait; Defer CloseErrC] []
| A_defer : shape_watch V1 [Defer CloseErrC] []
| A_over : shape_watch V1 [] [CloseErrC]
| A_close : shape_watch V1 [CloseErrC] []
| A_exit : shape_watch V1 [] []
| B_start : shape_watch V2 [Defer CloseErrC; Defer CloseDoneC; WgWait] []
| B_defer : shape_watch V2 [Defer CloseDoneC; WgWait] [CloseErrC]
| B_wait : shape_watch V2 [WgWait] [CloseDoneC; CloseErrC]
| B_over : shape_watch V2 [] [CloseDoneC; CloseErrC]
| B_done : shape_watch V2 [CloseDoneC] [CloseErrC]
| B_over' : shape_watch V2 [] [CloseErrC]
| B_close : shape_watch V2 [CloseErrC] []
| B_exit : shape_watch V2 [] [].

(** A goroutine started by the constructor. *)
Definition shape (v : version) (g : goroutine) : Prop :=
  match fn g with
  | NewFixedTaskGroup_fn => False
  | startTask_fn t => shape_task t (code g) (defers g) (panicking g)
  | watcher_fn v' => v' = v /\ shape_watch v (code g) (defers g) /\ panicking g = false
  end.

(** The caller inside the constructor. *)
Inductive shape_main (v : version) : list instr -> Prop :=
| M_loop ts : shape_main v (NewFixedTaskGroup_body v ts)
| M_add t ts : shape_main v (WgAdd 1 :: Go (startTask_fn t) :: NewFixedTaskGroup_body v ts)
| M_go t ts : shape_main v (Go (startTask_fn t) :: NewFixedTaskGroup_body v ts)
| M_ret : shape_main v [].

(** ** The invariant of the coordinator *)

Definition Inv (v : version) (w : world) : Prop :=
  exists m rest,
    gs w = mkGo NewFixedTaskGroup_fn m [] false :: rest /\
    shape_main v m /\
    Forall (shape v) rest /\
    wg (tg w) = weigh dn_i m - weigh ad_i m + total dn rest /\
    Z.of_nat (length (buf (errC (tg w)))) + weigh sn_i m + total sn rest
      <= Z.of_nat (cap (errC (tg w))) /\
    weigh ce_i m + total ce rest + b2z (closed (errC (tg w))) = 1 /\
    match doneC (tg w) with
    | None => v = V1
    | Some b => v = V2 /\ weigh cd_i m + total cd rest + b2z b = 1
    end /\
    (1 <= total arm rest + b2z (closed (errC (tg w))) -> m = [] /\ total dn rest = 0) /\
    cancelC (tg w) = cancelOnce (tg w).


(** ** What the log says *)

(** Errors sent on [errC], received from it, and returned by tasks, newest
    first. *)
Definition sends (l : list event) : list error :=
  flat_map (fun ev => match ev with EvSend _ e => [e] | _ => [] end) l.

Definition recvs (l : list event) : list error :=
  flat_map (fun ev => match ev with EvRecv (Some e) => [e] | _ => [] end) l.

Definition rets (l : list event) : list error :=
  flat_map (fun ev => match ev with EvRet _ _ (Return (Some e)) => [e] | _ => [] end) l.

(** Tasks called. *)
Definition calls (l : list event) : list Task :=
  flat_map (fun ev => match ev with EvCall _ t => [t] | _ => [] end) l.

(** The goroutines that called a task, got an answer, ran [wg.Done()]. *)
Definition call_ix (l : list event) : list nat :=
  flat_map (fun ev => match ev with EvCall i _ => [i] | _ => [] end) l.

Definition ret_ix (l : list event) : list nat :=
  flat_map (fun ev => match ev with EvRet i _ _ => [i] | _ => [] end) l.

Definition done_ix (l : list event) : list nat :=
  flat_map (fun ev => match ev with EvWgDone i => [i] | _ => [] end) l.

Definition one {A} `{EqDecision A} (x y : A) : Z :=
  if decide (x = y) then 1 else 0.

(** Number of occurrences. *)
Fixpoint occ {A} `{EqDecision A} (x : A) (l : list A) : Z :=
  match l with
  | [] => 0
  | y :: l' => one x y + occ x l'
  end.

(** Pending [g.errC <- e], pending calls of [t], pending answers. *)
Definition ps_i (e : error) (i : instr) : Z :=
  match i with Send e' => one e e' | _ => 0 end.

Definition pc_i (t : Task) (i : instr) : Z :=
  match i with
  | CallTask t' => one t t'
  | Go (startTask_fn t') => one t t'
  | _ => 0
  end.

Definition cl_i (i : instr) : Z :=
  match i with CallTask _ => 1 | _ => 0 end.

Definition aw_i (i : instr) : Z :=
  match i with CallTask _ | Await _ => 1 | _ => 0 end.

Definition ps (e : error) := measure (ps_i e).
Definition pc (t : Task) := measure (pc_i t).
Definition cl := measure cl_i.
Definition aw := measure aw_i.

(** The [append]s the constructor has still to run. *)
Definition appends (l : list instr) : list Task :=
  flat_map (fun i => match i with Append t => [t] | _ => [] end) l.

(** The constructor's remaining statements and the goroutines it started. *)
Definition mainc (w : world) : list instr :=
  match gs w with g :: _ => code g | [] => [] end.

Definition others (w : world) : list goroutine := tail (gs w).

(** The functions the constructor has still to start. *)
Definition gos (l : list instr) : list func :=
  flat_map (fun i => match i with Go f => [f] | _ => [] end) l.

(** 1 for a goroutine of [startTask], 0 for the watcher. *)
Definition tk (g : goroutine) : Z :=
  match fn g with startTask_fn _ => 1 | _ => 0 end.

(** The invariant that ties the log to the state. *)
Definition Hist (v : version) (ts : list Task) (w : world) : Prop :=
  cap (errC (tg w)) = length ts /\
  tasks (tg w) ++ appends (mainc w) = ts ++ ts /\
  sends (log w) = rev (buf (errC (tg w))) ++ recvs (log w) /\
  (forall e, occ e (sends (log w)) + total (ps e) (others w) = occ e (rets (log w))) /\
  (forall t, occ t (calls (log w)) + weigh (pc_i t) (mainc w) + total (pc t) (others w)
             = occ t ts) /\
  (forall j g, others w !! j = Some g ->
     occ (S j) (done_ix (log w)) + dn g = tk g /\
     occ (S j) (call_ix (log w)) + cl g = tk g /\
     occ (S j) (ret_ix (log w)) + aw g = tk g) /\
  (forall i, i = 0%nat \/ (length (others w) < i)%nat ->
     occ i (done_ix (log w)) = 0 /\
     occ i (call_ix (log w)) = 0 /\
     occ i (ret_ix (log w)) = 0) /\
  occ EvCloseCancelC (log w) = b2z (cancelC (tg w)) /\
  map fn (others w) ++ gos (mainc w) = map startTask_fn ts ++ [watcher_fn v].

(** ** Replacing error values *)

(** The program with every error value [e] replaced by [f e]: in the
    buffer, in the statements still to run, in the log and in what the
    tasks return. *)
Section Rename.
Variable f : error -> error.

Fixpoint rn_instr (i : instr) : instr :=
  match i with
  | Defer c => Defer (rn_instr c)
  | Send e => Send (f e)
  | _ => i
  end.

Definition rn_go (g : goroutine) : goroutine :=
  mkGo (fn g) (rn_instr <$> code g) (rn_instr <$> defers g) (panicking g).

Definition rn_chan (c : chan) : chan :=
  mkChan (cap c) (f <$> buf c) (closed c).

Definition rn_tg (g : FixedTaskGroup) : FixedTaskGroup :=
  mkGroup (tasks g) (wg g) (doneC g) (rn_chan (errC g)) (cancelC g) (cancelOnce g).

Definition rn_result (r : result) : result :=
  match r with
  | Return (Some e) => Return (Some (f e))
  | _ => r
  end.

Definition rn_event (ev : event) : event :=
  match ev with
  | EvRet i t r => EvRet i t (rn_result r)
  | EvSend i e => EvSend i (f e)
  | EvRecv (Some e) => EvRecv (Some (f e))
  | _ => ev
  end.

Definition rn_effect (eff : effect) : effect :=
  mkEffect (rn_tg (e_tg eff)) (rn_go (e_self eff)) (rn_go <$> e_spawn eff)
           (rn_event <$> e_log eff) (e_crash eff).

Definition rn_world (w : world) : world :=
  mkWorld (rn_tg (tg w)) (rn_go <$> gs w) (crashed w) (rn_event <$> log w).

Definition rn_action (a : action) : action :=
  match a with
  | ATaskRet i r => ATaskRet i (rn_result r)
  | _ => a
  end.

End Rename.

(** Put [e] wherever the sentinel [ErrTaskCancelled] stands. *)
Definition subst_sentinel (e x : error) : error :=
  if decide (x = ErrTaskCancelled) then e else x.

(** ** The two revisions side by side *)

(** The events both revisions can make: everything but those of [doneC]. *)
Definition shared (l : list event) : list event :=
  flat_map (fun ev => match ev with EvCloseDoneC | EvDone => [] | _ => [ev] end) l.

(** What a world shows of the common fields, and the common events so far. *)
Definition view (w : world) :=
  (tasks (tg w), wg (tg w), errC (tg w), cancelC (tg w), cancelOnce (tg w),
   crashed w, shared (log w)).

(** A world of the revision with [doneC] read as a world of the one
    without: the field is dropped, the watcher is put at the matching place
    of the old watcher's body, the [doneC] events are left out. *)
Definition old_instr (i : instr) : instr :=
  match i with
  | Go (watcher_fn V2) => Go (watcher_fn V1)
  | _ => i
  end.

Definition old_watcher (c d : list instr) : list instr * list instr :=
  match c, d with
  | [Defer CloseErrC; Defer CloseDoneC; WgWait], [] => ([WgWait; Defer CloseErrC], [])
  | [Defer CloseDoneC; WgWait], [CloseErrC] => ([WgWait; Defer CloseErrC], [])
  | [WgWait], [CloseDoneC; CloseErrC] => ([WgWait; Defer CloseErrC], [])
  | [], [CloseDoneC; CloseErrC] => ([Defer CloseErrC], [])
  | [CloseDoneC], [CloseErrC] => ([], [CloseErrC])
  | _, _ => (c, d)
  end.

Definition old_go (g : goroutine) : goroutine :=
  match fn g with
  | watcher_fn V2 =>
      mkGo (watcher_fn V1) (fst (old_watcher (code g) (defers g)))
           (snd (old_watcher (code g) (defers g))) (panicking g)
  | NewFixedTaskGroup_fn =>
      mkGo (fn g) (old_instr <$> code g) (defers g) (panicking g)
  | _ => g
  end.

Definition old_world (w : world) : world :=
  mkWorld (set_doneC None (tg w)) (old_go <$> gs w) (crashed w) (shared (log w)).

(** Steps of the new watcher that the old one has no counterpart for. *)
Definition stutters (g : goroutine) : Z :=
  match fn g, code g with
  | watcher_fn V2, [Defer CloseErrC; Defer CloseDoneC; WgWait] => 2
  | watcher_fn V2, [Defer CloseDoneC; WgWait] => 1
  | watcher_fn V2, [CloseDoneC] => 1
  | _, _ => 0
  end.

Definition lag (w : world) : Z := total stutters (others w).

(** ** Concrete runs *)

Definition errA : error := mkError 1 "task A".
Definition errB : error := mkError 2 "task B".

(** One task that returns an error, stopped right before its send. *)
Definition sched_one_error : list action :=
  [AGo 0; AGo 0; AGo 0; AGo 1; AGo 1; ATaskRet 1 (Return (Some errA))]%nat.

Definition world_one_error : world :=
  Eval vm_compute in
    match run sched_one_error (NewFixedTaskGroup V1 [7%nat]) with
    | Some w => w
    | None => NewFixedTaskGroup V1 []
    end.



(** Later calls of [Cancel] taken out of a schedule. *)
Definition is_cancel (a : action) : bool :=
  match a with ACancel => true | _ => false end.

Definition drop_cancels (s : list action) : list action :=
  List.filter (fun a => negb (is_cancel a)) s.

(** Two tasks returning "task A" and "task B" (the second answers first),
    run to the end under the revision with [DoneC], then drained. *)
Definition sched_two_errors : list action :=
  [AGo 0; AGo 0; AGo 0; AGo 0; AGo 0; AGo 0; AGo 0;
   AGo 2; AGo 2; ATaskRet 2 (Return (Some errB)); AGo 2;
   AGo 1; AGo 1; ATaskRet 1 (Return (Some errA)); AGo 1;
   AGo 3; AGo 3;
   AGo 1; AGo 1; AGo 2; AGo 2;
   AGo 3; AGo 3; AGo 3; AGo 3; AGo 3;
   ARecvErr; ARecvErr; ARecvErr; ARecvDone]%nat.

Definition world_two_errors : world :=
  Eval vm_compute in
    match run sched_two_errors (NewFixedTaskGroup V2 [7%nat; 8%nat]) with
    | Some w => w
    | None => NewFixedTaskGroup V2 []
    end.

(** One task returning "task A" under the revision with [DoneC]: the task
    goroutine runs to its end, the watcher up to its first deferred call,
    then somebody receives from [DoneC()]. *)
Definition sched_done_first : list action :=
  [AGo 0; AGo 0; AGo 0; AGo 0;
   AGo 1; AGo 1; ATaskRet 1 (Return (Some errA)); AGo 1; AGo 1; AGo 1;
   AGo 2; AGo 2; AGo 2; AGo 2; AGo 2;
   ARecvDone]%nat.

(** Goroutine 0 with [k] still to run. *)
Definition main_goroutine (k : list instr) : goroutine :=
  mkGo NewFixedTaskGroup_fn k [] false.

(** The constructor alone, from start to return. *)
Definition sched_constructor (ts : list Task) : list action :=
  repeat (AGo 0%nat) (3 * length ts + 1).

(** The watcher alone, from start to end. *)
Definition sched_watcher (v : version) (i : nat) : list action :=
  repeat (AGo i) (match v with V1 => 4 | V2 => 7 end)%nat.

(** The world the constructor leaves when nothing else moves meanwhile. *)
Definition constructed (v : version) (ts : list Task) (w : world) : world :=
  {| tg := set_wg (wg (tg w) + Z.of_nat (length ts))
             (set_tasks (tasks (tg w) ++ ts) (tg w));
     gs := mkGo NewFixedTaskGroup_fn [] [] false
           :: tail (gs w) ++ map (fun t => spawn (startTask_fn t)) ts
              ++ [spawn (watcher_fn v)];
     crashed := false;
     log := log w |}.

(** The same two tasks, the first answering first. *)
Definition sched_two_errors_swapped : list action :=
  [AGo 0; AGo 0; AGo 0; AGo 0; AGo 0; AGo 0; AGo 0;
   AGo 1; AGo 1; ATaskRet 1 (Return (Some errA)); AGo 1;
   AGo 2; AGo 2; ATaskRet 2 (Return (Some errB)); AGo 2;
   AGo 3; AGo 3;
   AGo 1; AGo 1; AGo 2; AGo 2;
   AGo 3; AGo 3; AGo 3; AGo 3; AGo 3;
   ARecvErr; ARecvErr; ARecvErr; ARecvDone]%nat.

(** ** Panics, work left, and schedules without task panics *)

(** The goroutines whose task call ended in a panic. *)
Definition fault_ix (l : list event) : list nat :=
  flat_map (fun ev => match ev with EvRet i _ Fault => [i] | _ => [] end) l.

(** A schedule in which no task panics. *)
Definition is_fault (a : action) : bool :=
  match a with ATaskRet _ Fault => true | _ => false end.

Definition faultless (s : list action) : bool :=
  forallb (fun a => negb (is_fault a)) s.

(** Only a goroutine whose task panicked is panicking, and only that ends
    the program. *)
Definition Safe (w : world) : Prop :=
  (forall j g, others w !! j = Some g -> panicking g = true ->
     1 <= occ (S j) (fault_ix (log w))) /\
  (crashed w = true -> fault_ix (log w) <> []).

(** Steps a statement still stands for: itself; for [defer], also taking
    the call off the stack and running it; for a task call, the call, its
    return and the send; for [go], the body of the new goroutine. *)
Fixpoint cost (i : instr) : Z :=
  match i with
  | Defer c => 2 + cost c
  | Go NewFixedTaskGroup_fn => 1
  | Go (startTask_fn _) => 7
  | Go (watcher_fn V1) => 5
  | Go (watcher_fn V2) => 8
  | CallTask _ => 3
  | Await _ => 2
  | _ => 1
  end.

Definition dcost (i : instr) : Z := 1 + cost i.

Definition work (g : goroutine) : Z :=
  weigh cost (code g) + weigh dcost (defers g).

(** Steps the goroutines of a world can still take, the one that ends the
    program included. *)
Definition work_left (w : world) : Z :=
  total work (gs w) + (if crashed w then 0 else 1).

(** Actions of the group's goroutines and of the tasks, as opposed to the
    callers' [Cancel()] and receives. *)
Definition is_internal (a : action) : bool :=
  match a with AGo _ | ATaskRet _ _ => true | _ => false end.

Definition internal_steps (s : list action) : Z :=
  Z.of_nat (length (List.filter is_internal s)).

(** Schedules made of goroutine steps and of tasks returning [nil]. *)
Definition is_quiet (a : action) : bool :=
  match a with
  | AGo _ => true
  | ATaskRet _ (Return None) => true
  | _ => false
  end.

(** A call of [Cancel()] occurs in the schedule. *)
Definition cancels (s : list action) : bool := existsb is_cancel s.

(** Indices from [k] on, [n] of them. *)
Definition in_range (k n i : nat) : bool := (k <=? i)%nat && (i <? k + n)%nat.

(** The world with every trace of [Cancel()] taken out. *)
Definition is_cancel_event (ev : event) : bool :=
  match ev with EvCloseCancelC => true | _ => false end.

Definition never_cancelled (w : world) : world :=
  mkWorld (set_cancel false false (tg w)) (gs w) (crashed w)
          (List.filter (fun ev => negb (is_cancel_event ev)) (log w)).

Definition uncancel_effect (eff : effect) : effect :=
  mkEffect (set_cancel false false (e_tg eff)) (e_self eff) (e_spawn eff)
           (e_log eff) (e_crash eff).

(** The constructor of a group of one task interrupted by two calls of
    [Cancel()]. *)
Definition sched_cancel_twice : list action :=
  [AGo 0; ACancel; AGo 0; ACancel]%nat.

Definition world_cancel_twice : world :=
  Eval vm_compute in
    match run sched_cancel_twice (NewFixedTaskGroup V1 [7%nat]) with
    | Some w => w
    | None => NewFixedTaskGroup V1 []
    end.
(** * Proofs *)

(** ** Sanity runs *)


Example run_v2_empty :
  option_map (fun w => (doneC (tg w), closed (errC (tg w)), log w))
    (run [AGo 0; AGo 1; AGo 1; AGo 1; AGo 1; AGo 1]%nat (NewFixedTaskGroup V2 []))
  = Some (Some true, false, [EvCloseDoneC]).
Proof. vm_compute. reflexivity. Qed.

Section Totals.
Variable f : goroutine -> Z.

Lemma total_app l k : total f (l ++ k) = total f l + total f k.
Proof. induction l as [|x l IH]; simpl; [lia | rewrite IH; lia]. Qed.

Lemma total_insert l i x y :
  l !! i = Some x -> total f (<[i := y]> l) = total f l - f x + f y.
Proof.
  revert i. induction l as [|z l IH]; intros [|i] H; simpl in *; try discriminate.
  - injection H as ->. lia.
  - rewrite (IH i H). lia.
Qed.

Lemma total_nonneg l : Forall (fun g => 0 <= f g) l -> 0 <= total f l.
Proof. induction 1; simpl; lia. Qed.

Lemma total_ge l i x :
  Forall (fun g => 0 <= f g) l -> l !! i = Some x -> f x <= total f l.
Proof.
  intros H. revert i. induction H as [|z l Hz Hl IH]; intros [|i] E;
    simpl in *; try discriminate.
  - injection E as ->. pose proof (total_nonneg l Hl). lia.
  - specialize (IH i E). lia.
Qed.

Lemma total_zero l i x :
  Forall (fun g => 0 <= f g) l -> total f l = 0 -> l !! i = Some x -> f x = 0.
Proof.
  intros H E L. pose proof (total_ge l i x H L).
  pose proof (proj1 (Forall_lookup _ l) H i x L) as Hx. simpl in Hx. lia.
Qed.
End Totals.

Lemma total_le f h l :
  Forall (fun g => f g <= h g) l -> total f l <= total h l.
Proof. induction 1; simpl; lia. Qed.

Lemma weigh_app f l k : weigh f (l ++ k) = weigh f l + weigh f k.
Proof. induction l as [|x l IH]; simpl; [lia | rewrite IH; lia]. Qed.

Lemma weigh_body v ts :
  weigh dn_i (NewFixedTaskGroup_body v ts) = Z.of_nat (length ts) /\
  weigh ad_i (NewFixedTaskGroup_body v ts) = Z.of_nat (length ts) /\
  weigh sn_i (NewFixedTaskGroup_body v ts) = Z.of_nat (length ts) /\
  weigh ce_i (NewFixedTaskGroup_body v ts) = 1 /\
  weigh cd_i (NewFixedTaskGroup_body v ts) = match v with V1 => 0 | V2 => 1 end.
Proof.
  unfold NewFixedTaskGroup_body.
  induction ts as [|t ts IH].
  - destruct v; simpl; lia.
  - destruct IH as (H1 & H2 & H3 & H4 & H5).
    change (flat_map startTask (t :: ts)) with (startTask t ++ flat_map startTask ts).
    rewrite <- !app_assoc, !(weigh_app _ (startTask t)), H1, H2, H3, H4, H5.
    simpl weigh. rewrite length_cons. lia.
Qed.

Lemma shape_facts v g :
  shape v g ->
  0 <= sn g /\ sn g <= dn g /\ 0 <= ce g /\ 0 <= cd g /\ 0 <= arm g /\ ad g = 0.
Proof.
  destruct g as [f c d p]. unfold shape. simpl.
  destruct f as [|t|v']; [tauto| |].
  - destruct 1; vm_compute; repeat split; congruence.
  - intros (-> & H & _). destruct H; vm_compute; repeat split; congruence.
Qed.

Lemma shape_main_facts v m :
  shape_main v m ->
  0 <= weigh ad_i m /\ weigh ad_i m <= weigh dn_i m /\
  0 <= weigh sn_i m /\ 0 <= weigh ce_i m /\ 0 <= weigh cd_i m /\
  (weigh ce_i m = 0 -> m = []).
Proof.
  destruct 1 as [ts|t ts|t ts|];
    try (destruct (weigh_body v ts) as (H1 & H2 & H3 & H4 & H5));
    cbn [weigh foldr dn_i ad_i sn_i ce_i cd_i];
    try fold (weigh dn_i (NewFixedTaskGroup_body v ts));
    try fold (weigh ad_i (NewFixedTaskGroup_body v ts));
    try fold (weigh sn_i (NewFixedTaskGroup_body v ts));
    try fold (weigh ce_i (NewFixedTaskGroup_body v ts));
    try fold (weigh cd_i (NewFixedTaskGroup_body v ts));
    try rewrite ?H1, ?H2, ?H3, ?H4, ?H5;
    repeat split; try lia; try (destruct v; lia).
Qed.

Lemma Inv_init v ts : Inv v (NewFixedTaskGroup v ts).
Proof.
  exists (NewFixedTaskGroup_body v ts), [].
  destruct (weigh_body v ts) as (H1 & H2 & H3 & H4 & H5).
  simpl. rewrite H1, H2, H3, H4.
  repeat split; try constructor; try (unfold b2z, total; simpl; lia).
  destruct v; [reflexivity|]. rewrite H5. split; [reflexivity|simpl; lia].
Qed.

Arguments NewFixedTaskGroup_body : simpl never.
Arguments weigh : simpl never.
Arguments total : simpl never.

Lemma body_nil v : NewFixedTaskGroup_body v [] = [Go (watcher_fn v)].
Proof. reflexivity. Qed.

Lemma body_cons v t ts :
  NewFixedTaskGroup_body v (t :: ts)
  = Append t :: WgAdd 1 :: Go (startTask_fn t) :: NewFixedTaskGroup_body v ts.
Proof. reflexivity. Qed.

Lemma weigh_nil f : weigh f [] = 0.
Proof. reflexivity. Qed.

Lemma weigh_cons f i l : weigh f (i :: l) = f i + weigh f l.
Proof. reflexivity. Qed.

Lemma total_nil f : total f [] = 0.
Proof. reflexivity. Qed.

Lemma total_cons f g l : total f (g :: l) = f g + total f l.
Proof. reflexivity. Qed.

Lemma Forall_shape_nonneg v rest :
  Forall (shape v) rest ->
  Forall (fun g => 0 <= dn g) rest /\ Forall (fun g => 0 <= sn g) rest /\
  Forall (fun g => 0 <= ce g) rest /\ Forall (fun g => 0 <= cd g) rest /\
  Forall (fun g => 0 <= arm g) rest.
Proof.
  intros H. repeat split; eapply Forall_impl; try exact H;
    intros g Hg; destruct (shape_facts v g Hg) as (?&?&?&?&?&?); simpl; lia.
Qed.

Lemma measure_mk f h c d p :
  measure f (mkGo h c d p) = weigh f c + weigh f d.
Proof. reflexivity. Qed.

Lemma dn_mk h c d p : dn (mkGo h c d p) = weigh dn_i c + weigh dn_i d.
Proof. reflexivity. Qed.
Lemma sn_mk h c d p : sn (mkGo h c d p) = weigh sn_i c + weigh sn_i d.
Proof. reflexivity. Qed.
Lemma ce_mk h c d p : ce (mkGo h c d p) = weigh ce_i c + weigh ce_i d.
Proof. reflexivity. Qed.
Lemma cd_mk h c d p : cd (mkGo h c d p) = weigh cd_i c + weigh cd_i d.
Proof. reflexivity. Qed.
Lemma arm_mk h c d p :
  arm (mkGo h c d p)
  = if weigh wt_i c + weigh wt_i d =? 0 then weigh ce_i c + weigh ce_i d else 0.
Proof. reflexivity. Qed.

(** Compute the measures of the goroutines that are written out. *)
Ltac measures :=
  unfold b2z, spawn, continue, panic in *;
  cbn [code defers fn panicking body] in *;
  repeat (progress (
    rewrite ?dn_mk, ?sn_mk, ?ce_mk, ?cd_mk, ?arm_mk in *;
    rewrite ?weigh_cons, ?weigh_nil, ?total_cons, ?total_nil, ?total_app in *));
  cbn [dn_i ad_i sn_i ce_i cd_i wt_i] in *;
  cbn [Z.eqb Z.add Pos.eqb Pos.add Pos.succ] in *.

Ltac split_all :=
  repeat match goal with
  | H : _ /\ _ |- _ => destruct H
  | |- _ /\ _ => split
  | |- _ -> _ => intro
  end.

Ltac shapes :=
  match goal with
  | |- shape_main _ _ =>
      first [ assumption | solve [constructor]
            | rewrite <- body_cons; solve [constructor] ]
  | |- Forall _ (_ ++ _) => apply Forall_app; split; [shapes | shapes]
  | |- Forall _ (<[_ := _]> _) => apply Forall_insert; [assumption | shapes]
  | |- Forall _ [_] => apply Forall_cons; split; [shapes | constructor]
  | |- Forall _ [] => constructor
  | |- Forall _ _ => assumption
  | |- shape _ _ =>
      unfold shape; cbn;
      first [ solve [constructor] | repeat split; solve [constructor | reflexivity] ]
  end.

Ltac use_impl :=
  repeat match goal with
  | H : ?a <= ?b -> _ |- _ =>
      destruct (Z_le_gt_dec a b) as [HP|HP]; [specialize (H HP)|clear H]
  | H : ?a = ?b -> _ |- _ =>
      first [ assert (a <> b) by lia; clear H
            | let HP := fresh in assert (HP : a = b) by lia; specialize (H HP) ]
  end.

Ltac arith :=
  repeat match goal with
  | H : context [doneC ?g] |- _ => destruct (doneC g) as [[]|]
  | |- context [doneC ?g] => destruct (doneC g) as [[]|]
  | H : context [closed ?c] |- _ => destruct (closed c)
  | |- context [closed ?c] => destruct (closed c)
  | H : context [?a =? ?b] |- _ => destruct (Z.eqb_spec a b)
  | |- context [?a =? ?b] => destruct (Z.eqb_spec a b)
  end;
  intros; split_all; use_impl; split_all;
  try discriminate; try congruence; try lia.

Ltac bools :=
  repeat match goal with
  | H : Z.ltb _ _ = true |- _ => apply Z.ltb_lt in H
  | H : Z.ltb _ _ = false |- _ => apply Z.ltb_ge in H
  | H : Z.eqb _ _ = true |- _ => apply Z.eqb_eq in H
  | H : Z.eqb _ _ = false |- _ => apply Z.eqb_neq in H
  | H : Nat.ltb _ _ = true |- _ => apply Nat.ltb_lt in H
  | H : Nat.ltb _ _ = false |- _ => apply Nat.ltb_ge in H
  end.

Ltac inserts :=
  repeat match goal with
  | H : ?l !! ?i = Some ?x |- context [total ?f (<[?i := ?y]> ?l)] =>
      rewrite (total_insert f l i x y H)
  end.

Lemma insert_head {A} (x y : A) l : <[0%nat := y]> (x :: l) = y :: l.
Proof. reflexivity. Qed.

Lemma insert_tail {A} (x y : A) l j : <[S j := y]> (x :: l) = x :: <[j := y]> l.
Proof. reflexivity. Qed.

Ltac close_inv :=
  unfold Inv, apply_effect;
  cbn [tg gs crashed log e_tg e_self e_spawn e_log e_crash];
  rewrite ?insert_head, ?insert_tail; cbn [app]; rewrite ?app_nil_r;
  eexists _, _; split; [reflexivity|];
  split; [shapes|]; split; [shapes|];
  inserts; measures;
  cbn [wg errC buf cap closed doneC cancelC cancelOnce tasks
       set_wg set_tasks set_errC set_doneC set_cancel] in *;
  repeat match goal with
  | H : buf ?c = _ |- context [buf ?c] => rewrite H
  end;
  rewrite ?length_app in *; cbn [length] in *;
  bools; arith.

(** Run the step recorded in [He], one goal per way it can go. *)
Ltac innermost x :=
  lazymatch x with
  | context [match ?y with _ => _ end] => innermost y
  | _ => destruct x eqn:?
  end.

Ltac run_step He :=
  unfold step, task_returns, prim, wg_Done, wg_Add, wg_Wait, send, close_errC,
    close_doneC, Cancel, recv, ErrC, DoneC in He;
  cbn [code defers fn panicking option_map] in He;
  repeat (match type of He with
          | context [match ?x with _ => _ end] => innermost x
          end; cbn [option_map] in He);
  try discriminate He;
  try (injection He as <-).

Ltac contra :=
  exfalso; measures;
  cbn [wg errC buf cap closed doneC cancelC cancelOnce tasks] in *;
  bools; arith.

Ltac settle He := run_step He; first [ solve [close_inv] | solve [contra] | idtac ].

(** The case analysis behind every invariant: which goroutine moved, in
    which state it was, and how the runtime answered.  [tac] closes each
    case. *)
Ltac prepare HI He :=
  let m := fresh "m" in let rest := fresh "rest" in
  let Hgs := fresh "Hgs" in let Hm := fresh "Hm" in let Hr := fresh "Hr" in
  let Hwg := fresh "Hwg" in let Hbuf := fresh "Hbuf" in let Hce := fresh "Hce" in
  let Hcd := fresh "Hcd" in let Harm := fresh "Harm" in let Hcan := fresh "Hcan" in
  destruct HI as (m & rest & Hgs & Hm & Hr & Hwg & Hbuf & Hce & Hcd & Harm & Hcan);
  match type of He with
  | exec ?w _ = _ =>
      let g := fresh "g" in let l := fresh "l" in
      let c := fresh "c" in let lg := fresh "lg" in
      destruct w as [g l c lg];
      cbn [gs tg crashed log] in *; subst l;
      unfold exec in He; cbn [gs tg crashed log] in He;
      destruct c; [discriminate|]
  end;
  let Fm := fresh "Fm" in
  pose proof (shape_main_facts _ m Hm) as Fm;
  let Ndn := fresh "Ndn" in let Nsn := fresh "Nsn" in let Nce := fresh "Nce" in
  let Ncd := fresh "Ncd" in let Narm := fresh "Narm" in
  destruct (Forall_shape_nonneg _ rest Hr) as (Ndn & Nsn & Nce & Ncd & Narm);
  pose proof (total_nonneg _ _ Ndn);
  pose proof (total_nonneg _ _ Nsn);
  pose proof (total_nonneg _ _ Nce);
  pose proof (total_nonneg _ _ Ncd);
  pose proof (total_nonneg _ _ Narm).

Ltac clear_foralls :=
  repeat match goal with
  | N : Forall (fun g => 0 <= _) _ |- _ => clear N
  end.

(** Goroutine [j] of the started ones moves: name it, with its shape. *)
Ltac pick_goroutine He k :=
  cbn [lookup list_lookup] in He;
  match type of He with
  | context [?r !! ?j] =>
      let gj := fresh "gj" in let Hj := fresh "Hj" in let Sj := fresh "Sj" in
      destruct (r !! j) as [gj|] eqn:Hj; [|discriminate];
      match goal with
      | Hr : Forall (shape _) r |- _ =>
          pose proof (proj1 (Forall_lookup _ _) Hr j gj Hj) as Sj
      end;
      repeat match goal with
      | N : Forall (fun g => 0 <= _) r |- _ =>
          pose proof (total_ge _ _ _ _ N Hj); clear N
      end;
      let f := fresh "f" in let c := fresh "c" in
      let d := fresh "d" in let p := fresh "p" in
      destruct gj as [f c d p]; unfold shape in Sj; cbn in Sj;
      destruct f as [|?t|?v]; [tauto| |]; k Sj
  end.

Ltac main_cases He tac :=
  cbn [lookup list_lookup] in He; clear_foralls;
  match goal with
  | Hm : shape_main _ _ |- _ =>
      destruct Hm as [ts'|t ts'|t ts'|];
      [ destruct ts' as [|t ts'];
        [ rewrite body_nil in *;
          match goal with v : version |- _ => destruct v end; tac
        | rewrite body_cons in *; tac ]
      | tac | tac | try discriminate He ]
  end.

Ltac step_cases He a tac :=
  let i := fresh "i" in let r := fresh "r" in let j := fresh "j" in
  destruct a as [i|i r| | |];
  [ destruct i as [|j];
    [ main_cases He tac
    | pick_goroutine He ltac:(fun Sj =>
        first [ destruct Sj as (-> & Sj & ->); destruct Sj; tac
              | destruct Sj; tac ]) ]
  | destruct i as [|j];
    [ main_cases He ltac:(try discriminate He)
    | pick_goroutine He ltac:(fun Sj =>
        first [ destruct Sj as (-> & Sj & ->); destruct Sj; discriminate He
              | destruct Sj; try discriminate He;
                destruct r as [[?e|]|]; tac ]) ]
  | clear_foralls; tac
  | clear_foralls; tac
  | clear_foralls; tac ].

Lemma Inv_exec v w a w' : Inv v w -> exec w a = Some w' -> Inv v w'.
Proof.
  intros HI He. prepare HI He.
  step_cases He a ltac:(settle He).
Qed.

(** ** The log invariant *)

Arguments sends : simpl never.
Arguments recvs : simpl never.
Arguments rets : simpl never.
Arguments calls : simpl never.
Arguments call_ix : simpl never.
Arguments ret_ix : simpl never.
Arguments done_ix : simpl never.
Arguments appends : simpl never.

Lemma sends_cons ev l :
  sends (ev :: l) = match ev with EvSend _ e => [e] | _ => [] end ++ sends l.
Proof. reflexivity. Qed.
Lemma recvs_cons ev l :
  recvs (ev :: l) = match ev with EvRecv (Some e) => [e] | _ => [] end ++ recvs l.
Proof. reflexivity. Qed.
Lemma rets_cons ev l :
  rets (ev :: l)
  = match ev with EvRet _ _ (Return (Some e)) => [e] | _ => [] end ++ rets l.
Proof. reflexivity. Qed.
Lemma calls_cons ev l :
  calls (ev :: l) = match ev with EvCall _ t => [t] | _ => [] end ++ calls l.
Proof. reflexivity. Qed.
Lemma call_ix_cons ev l :
  call_ix (ev :: l) = match ev with EvCall i _ => [i] | _ => [] end ++ call_ix l.
Proof. reflexivity. Qed.
Lemma ret_ix_cons ev l :
  ret_ix (ev :: l) = match ev with EvRet i _ _ => [i] | _ => [] end ++ ret_ix l.
Proof. reflexivity. Qed.
Lemma done_ix_cons ev l :
  done_ix (ev :: l) = match ev with EvWgDone i => [i] | _ => [] end ++ done_ix l.
Proof. reflexivity. Qed.
Lemma appends_cons i l :
  appends (i :: l) = match i with Append t => [t] | _ => [] end ++ appends l.
Proof. reflexivity. Qed.

Lemma ps_mk e h c d p : ps e (mkGo h c d p) = weigh (ps_i e) c + weigh (ps_i e) d.
Proof. reflexivity. Qed.
Lemma pc_mk t h c d p : pc t (mkGo h c d p) = weigh (pc_i t) c + weigh (pc_i t) d.
Proof. reflexivity. Qed.
Lemma cl_mk h c d p : cl (mkGo h c d p) = weigh cl_i c + weigh cl_i d.
Proof. reflexivity. Qed.
Lemma aw_mk h c d p : aw (mkGo h c d p) = weigh aw_i c + weigh aw_i d.
Proof. reflexivity. Qed.

Lemma occ_cons {A} `{EqDecision A} (x y : A) l : occ x (y :: l) = one x y + occ x l.
Proof. reflexivity. Qed.

Lemma occ_nonneg {A} `{EqDecision A} (x : A) l : 0 <= occ x l.
Proof. induction l; simpl; unfold one; try case_decide; lia. Qed.

Lemma weigh_pc_body v t ts :
  weigh (pc_i t) (NewFixedTaskGroup_body v ts) = occ t ts.
Proof.
  induction ts as [|t' ts IH].
  - reflexivity.
  - rewrite body_cons, !weigh_cons, IH. cbn [pc_i occ]. lia.
Qed.

Lemma appends_body v ts : appends (NewFixedTaskGroup_body v ts) = ts.
Proof.
  induction ts as [|t' ts IH].
  - reflexivity.
  - rewrite body_cons, !appends_cons, IH. reflexivity.
Qed.

Lemma gos_nil : gos [] = [].
Proof. reflexivity. Qed.

Lemma gos_cons i l :
  gos (i :: l) = match i with Go f => [f] | _ => [] end ++ gos l.
Proof. reflexivity. Qed.

Lemma gos_body v ts :
  gos (NewFixedTaskGroup_body v ts) = map startTask_fn ts ++ [watcher_fn v].
Proof.
  induction ts as [|t' ts IH].
  - reflexivity.
  - rewrite body_cons, !gos_cons, IH. reflexivity.
Qed.

Arguments gos : simpl never.

Lemma map_fn_insert (rest : list goroutine) j g g' :
  rest !! j = Some g -> fn g' = fn g -> map fn (<[j := g']> rest) = map fn rest.
Proof.
  revert j. induction rest as [|x rest IH]; intros [|j] H E; simpl in *;
    try discriminate.
  - injection H as ->. rewrite E. reflexivity.
  - f_equal. rewrite <- (IH j H E). reflexivity.
Qed.

Lemma appends_nil : appends [] = [].
Proof. reflexivity. Qed.

Lemma Hist_init v ts : Hist v ts (NewFixedTaskGroup v ts).
Proof.
  unfold Hist, mainc, others, NewFixedTaskGroup.
  cbn [gs tg log code tail errC cap buf tasks cancelC map app].
  rewrite appends_body, gos_body.
  repeat split; try reflexivity; intros; try lia.
  - rewrite weigh_pc_body. unfold calls, total. simpl. lia.
  - destruct j; discriminate.
  - destruct j; discriminate.
  - destruct j; discriminate.
Qed.

Ltac lognorm :=
  rewrite ?sends_cons, ?recvs_cons, ?rets_cons, ?calls_cons, ?call_ix_cons,
    ?ret_ix_cons, ?done_ix_cons, ?appends_cons, ?appends_nil,
    ?gos_cons, ?gos_nil in *;
  cbn [app] in *.

Ltac group_fields :=
  cbn [wg errC buf cap closed doneC cancelC cancelOnce tasks
       set_wg set_tasks set_errC set_doneC set_cancel] in *.

Ltac counts :=
  unfold spawn, continue, panic, tk, b2z in *;
  cbn [code defers fn panicking body] in *;
  repeat (progress (
    rewrite ?dn_mk, ?ps_mk, ?pc_mk, ?cl_mk, ?aw_mk in *;
    rewrite ?weigh_cons, ?weigh_nil, ?total_cons, ?total_nil, ?total_app in *));
  cbn [dn_i ps_i pc_i cl_i aw_i] in *;
  rewrite ?occ_cons in *;
  unfold one in *;
  repeat case_decide; simplify_eq; try lia.

Ltac hist_index H6 H7 :=
  let j' := fresh "j'" in let g' := fresh "g'" in
  let Hl := fresh "Hl" in
  intros j' g' Hl;
  lazymatch type of Hl with
  | (<[?j := _]> ?r) !! _ = _ =>
      destruct (decide (j' = j)) as [->|?];
      [ match goal with
        | Hj : r !! j = Some _ |- _ =>
            rewrite list_lookup_insert_eq in Hl by (eapply lookup_lt_Some; exact Hj);
            injection Hl as <-;
            pose proof (H6 j _ Hj) as (? & ? & ?)
        end
      | rewrite list_lookup_insert_ne in Hl by congruence;
        pose proof (H6 j' g' Hl) as (? & ? & ?) ]
  | (?r ++ [_]) !! _ = _ =>
      apply lookup_app_Some in Hl as [Hl | [? Hl]];
      [ pose proof (H6 j' g' Hl) as (? & ? & ?)
      | destruct (j' - length r)%nat eqn:?; [|discriminate Hl];
        injection Hl as <-;
        assert (j' = length r) as -> by lia;
        pose proof (H7 (S (length r)) ltac:(right; lia)) as (? & ? & ?) ]
  | _ => pose proof (H6 j' g' Hl) as (? & ? & ?)
  end;
  lognorm; counts.

Ltac hist_bound H7 :=
  let i := fresh "i" in let Hi := fresh "Hi" in
  intros i Hi;
  rewrite ?length_insert, ?length_app in Hi; cbn [length] in Hi;
  repeat match goal with
  | Hj : _ !! _ = Some _ |- _ => apply lookup_lt_Some in Hj
  end;
  pose proof (H7 i ltac:(lia)) as (? & ? & ?);
  lognorm; counts.

Ltac hist_fifo H3 :=
  lognorm; group_fields;
  repeat match goal with
  | H : buf ?c = _ |- _ => rewrite H in *
  end;
  rewrite ?rev_unit; cbn [rev app] in *;
  rewrite ?H3, <- ?app_assoc; cbn [app];
  first [ reflexivity | assumption | congruence ].

Ltac hist_fns H9 :=
  lognorm;
  repeat match goal with
  | Hj : ?r !! ?j = Some ?g |- context [map fn (<[?j := ?g']> ?r)] =>
      rewrite (map_fn_insert r j g g' Hj eq_refl)
  end;
  rewrite ?map_app; cbn [map fn spawn]; rewrite <- ?app_assoc; cbn [app];
  rewrite ?app_nil_r in *; exact H9.

Ltac close_hist H1 H2 H3 H4 H5 H6 H7 H8 H9 :=
  unfold Hist, apply_effect, mainc, others;
  cbn [tg gs crashed log e_tg e_self e_spawn e_log e_crash];
  rewrite ?insert_head, ?insert_tail;
  cbn [app tail code continue panic]; rewrite ?app_nil_r;
  split; [group_fields; exact H1|];
  split; [lognorm; group_fields; rewrite <- ?app_assoc; cbn [app];
          rewrite ?app_nil_r in *; exact H2|];
  split; [hist_fifo H3|];
  split; [let e := fresh "e" in intros e; specialize (H4 e); inserts; lognorm; counts|];
  split; [let t := fresh "t" in intros t; specialize (H5 t); inserts; lognorm; counts|];
  split; [hist_index H6 H7|];
  split; [hist_bound H7|];
  split; [group_fields; lognorm; counts | hist_fns H9].

Lemma Hist_exec v ts w a w' :
  Inv v w -> Hist v ts w -> exec w a = Some w' -> Hist v ts w'.
Proof.
  intros HI HH He.
  destruct HH as (H1 & H2 & H3 & H4 & H5 & H6 & H7 & H8 & H9).
  unfold mainc, others in *.
  prepare HI He.
  cbn [tail code] in *.
  step_cases He a ltac:(run_step He; try solve [contra]).
  all: match goal with H : _ <= _ /\ _ |- _ => clear H end.
  all: repeat match goal with
       | H : 0 <= total _ _ |- _ => clear H
       | H : _ <= total _ _ |- _ => clear H
       end.
  all: repeat match goal with
       | H : context [total dn] |- _ => clear H
       | H : context [total ce] |- _ => clear H
       end.
  all: solve [close_hist H1 H2 H3 H4 H5 H6 H7 H8 H9].
Qed.

(** ** Every world the program reaches satisfies both invariants *)

Lemma run_app s1 s2 w :
  run (s1 ++ s2) w = match run s1 w with Some w' => run s2 w' | None => None end.
Proof.
  revert w. induction s1 as [|a s1 IH]; intros w; simpl; [reflexivity|].
  destruct (exec w a); [apply IH | reflexivity].
Qed.

Lemma run_inv v ts s w w' :
  Inv v w -> Hist v ts w -> run s w = Some w' -> Inv v w' /\ Hist v ts w'.
Proof.
  revert w. induction s as [|a s IH]; intros w HI HH Hr; simpl in Hr.
  - injection Hr as <-. split; assumption.
  - destruct (exec w a) as [w1|] eqn:He; [|discriminate].
    apply (IH w1); [eapply Inv_exec | eapply Hist_exec | ]; eassumption.
Qed.

Lemma reach_inv v ts s w :
  run s (NewFixedTaskGroup v ts) = Some w -> Inv v w /\ Hist v ts w.
Proof. apply run_inv; [apply Inv_init | apply Hist_init]. Qed.

(** ** Looking up a goroutine in a reachable world *)

Lemma Inv_gs v w :
  Inv v w ->
  exists m rest, gs w = mkGo NewFixedTaskGroup_fn m [] false :: rest /\
    mainc w = m /\ others w = rest /\ shape_main v m /\ Forall (shape v) rest.
Proof.
  intros (m & rest & Hgs & Hm & Hr & _). exists m, rest.
  unfold mainc, others. rewrite Hgs. repeat split; assumption.
Qed.

Lemma shape_main_head v m i k : shape_main v m -> m = i :: k ->
  (exists t, i = Append t) \/ i = WgAdd 1 \/ (exists f, i = Go f).
Proof.
  intros H E. destruct H as [ts|t ts|t ts|].
  - destruct ts as [|t ts]; [rewrite body_nil in E | rewrite body_cons in E];
      injection E as <- _; eauto.
  - injection E as <- _; eauto.
  - injection E as <- _; eauto.
  - discriminate.
Qed.

(** A goroutine about to send holds a pending [wg.Done()]: the channel is
    open and has room. *)
Lemma send_ready v w j g e k :
  Inv v w -> others w !! j = Some g -> code g = Send e :: k ->
  closed (errC (tg w)) = false /\
  (length (buf (errC (tg w))) < cap (errC (tg w)))%nat.
Proof.
  intros (m & rest & Hgs & Hm & Hr & Hwg & Hbuf & Hce & Hcd & Harm & Hcan) Hj Hc.
  unfold others in Hj. rewrite Hgs in Hj. cbn [tail] in Hj.
  pose proof (shape_main_facts v m Hm) as Fm.
  destruct (Forall_shape_nonneg v rest Hr) as (Ndn & Nsn & Nce & Ncd & Narm).
  pose proof (total_nonneg _ _ Narm).
  pose proof (total_ge _ _ _ _ Ndn Hj).
  pose proof (total_ge _ _ _ _ Nsn Hj).
  pose proof (proj1 (Forall_lookup _ _) Hr j g Hj) as Sj.
  destruct g as [f c d p]. unfold shape in Sj. cbn in *. subst c.
  destruct f as [|t|v']; [tauto| |].
  - inversion Sj; subst. measures.
    destruct (closed (errC (tg w))); unfold b2z in *; split; lia.
  - destruct Sj as (_ & Sj & _). inversion Sj.
Qed.

(** C2: the error channel has capacity exactly [len(tasks)]; the errors
    buffered plus the sends that can still happen (one per task not yet
    finished) never exceed it, so whenever a goroutine stands at
    [g.errC <- err] the send goes through at once: the channel is open and
    the buffer has room, whether or not anybody receives. *)
Theorem errC_send_never_blocks v ts sched w :
  run sched (NewFixedTaskGroup v ts) = Some w ->
  cap (errC (tg w)) = length ts /\
  Z.of_nat (length (buf (errC (tg w)))) + weigh sn_i (mainc w) + total sn (others w)
    <= Z.of_nat (length ts) /\
  forall i g e k,
    gs w !! i = Some g -> code g = Send e :: k ->
    send e (tg w)
    = Next (set_errC (mkChan (cap (errC (tg w))) (buf (errC (tg w)) ++ [e]) false) (tg w)).
Proof.
  intros Hrun. destruct (reach_inv _ _ _ _ Hrun) as [HI HH].
  destruct HH as (H1 & _).
  split; [exact H1|]. split.
  - destruct HI as (m & rest & Hgs & Hm & Hr & Hwg & Hbuf & _).
    unfold mainc, others. rewrite Hgs. cbn [code tail]. lia.
  - intros i g e k Hi Hc.
    destruct (Inv_gs v w HI) as (m & rest & Hgs & Hmc & Hot & Hm & Hr).
    rewrite Hgs in Hi. destruct i as [|j]; cbn in Hi.
    + injection Hi as <-. cbn in Hc.
      destruct (shape_main_head v m _ _ Hm Hc) as [[t E]|[E|[f E]]]; discriminate.
    + rewrite <- Hot in Hi.
      destruct (send_ready v w j g e k HI Hi Hc) as [Hcl Hlt].
      unfold send. cbn zeta. rewrite Hcl.
      apply Nat.ltb_lt in Hlt. rewrite Hlt. reflexivity.
Qed.

Lemma errC_send_never_blocks_witness :
  send errA (tg world_one_error)
  = Next (set_errC (mkChan 1 [errA] false) (tg world_one_error)).
Proof.
  destruct (errC_send_never_blocks V1 [7%nat] sched_one_error world_one_error
              eq_refl) as (_ & _ & H).
  exact (H 1%nat _ errA [] eq_refl eq_refl).
Defined.

(** ** Progress of a task goroutine *)

Lemma exec_AGo w i g :
  crashed w = false -> gs w !! i = Some g ->
  exec w (AGo i) = option_map (fun eff => apply_effect i eff w) (step i (tg w) g).
Proof. intros Hc Hi. unfold exec. rewrite Hc, Hi. reflexivity. Qed.

Lemma exec_ATaskRet w i r g :
  crashed w = false -> gs w !! i = Some g ->
  exec w (ATaskRet i r)
  = option_map (fun eff => apply_effect i eff w) (task_returns i r (tg w) g).
Proof. intros Hc Hi. unfold exec. rewrite Hc, Hi. reflexivity. Qed.

Lemma is_Some_prim i o ev tg0 g k : o <> Blocked -> is_Some (prim i o ev tg0 g k).
Proof. destruct o; intros H; [eexists; reflexivity | congruence | eexists; reflexivity]. Qed.

Lemma wg_Add_moves n tg0 : wg_Add n tg0 <> Blocked.
Proof. unfold wg_Add. destruct (wg tg0 + n <? 0); discriminate. Qed.



(** ** Counting lemmas *)

Lemma occ_app {A} `{EqDecision A} (x : A) l k : occ x (l ++ k) = occ x l + occ x k.
Proof. induction l as [|y l IH]; simpl; [lia | rewrite IH; lia]. Qed.

Lemma occ_rev {A} `{EqDecision A} (x : A) l : occ x (rev l) = occ x l.
Proof.
  induction l as [|y l IH]; simpl; [reflexivity|].
  rewrite occ_app, IH. simpl. lia.
Qed.

Lemma occ_count {A} `{EqDecision A} (x : A) l :
  occ x l = Z.of_nat (count_occ (fun a b => decide (a = b)) l x).
Proof.
  induction l as [|y l IH]; simpl; [reflexivity|]. rewrite IH. unfold one.
  destruct (decide (x = y)) as [->|Hn].
  - destruct (decide (y = y)); [lia | congruence].
  - destruct (decide (y = x)); [congruence | lia].
Qed.

Lemma occ_Permutation {A} `{EqDecision A} (l k : list A) :
  (forall x, occ x l = occ x k) -> Permutation l k.
Proof.
  intros H. apply (Permutation_count_occ (fun a b => decide (a = b))).
  intros x. specialize (H x). rewrite !occ_count in H. lia.
Qed.

Lemma weigh_nonneg f l : (forall i, 0 <= f i) -> 0 <= weigh f l.
Proof.
  intros H. induction l as [|i l IH]; [rewrite weigh_nil; lia|].
  rewrite weigh_cons. specialize (H i). lia.
Qed.

Lemma measure_nonneg f g : (forall i, 0 <= f i) -> 0 <= measure f g.
Proof.
  intros H. unfold measure.
  pose proof (weigh_nonneg f (code g) H). pose proof (weigh_nonneg f (defers g) H). lia.
Qed.

Lemma total_measure_nonneg f l : (forall i, 0 <= f i) -> 0 <= total (measure f) l.
Proof.
  intros H. apply total_nonneg. apply Forall_forall. intros g _.
  apply measure_nonneg, H.
Qed.

Lemma total_all_zero f l : Forall (fun g => f g = 0) l -> total f l = 0.
Proof. induction 1 as [|g l Hg _ IH]; [reflexivity|]. rewrite total_cons. lia. Qed.

Lemma ps_i_nonneg e i : 0 <= ps_i e i.
Proof. destruct i; simpl; unfold one; try case_decide; lia. Qed.

Lemma pc_i_nonneg t i : 0 <= pc_i t i.
Proof.
  destruct i as [| f | | | | | | | | |]; simpl; try lia.
  - destruct f; unfold one; try case_decide; lia.
  - unfold one; case_decide; lia.
Qed.

Lemma cl_i_nonneg i : 0 <= cl_i i.
Proof. destruct i; simpl; lia. Qed.

Lemma aw_i_nonneg i : 0 <= aw_i i.
Proof. destruct i; simpl; lia. Qed.

(** ** Once [errC] is closed everything is over *)

Lemma shape_over v g :
  shape v g -> dn g = 0 -> ce g = 0 -> code g = [] /\ defers g = [].
Proof.
  destruct g as [f c d p]. unfold shape. cbn.
  destruct f as [|t|v']; [tauto| |].
  - destruct 1; intros Hd Hc; measures; try lia; split; reflexivity.
  - intros (-> & H & _). destruct H; intros Hd Hc; measures; try lia;
      split; reflexivity.
Qed.

Lemma closed_all_over v w :
  Inv v w -> closed (errC (tg w)) = true ->
  mainc w = [] /\ Forall (fun g => code g = [] /\ defers g = []) (others w).
Proof.
  intros (m & rest & Hgs & Hm & Hr & Hwg & Hbuf & Hce & Hcd & Harm & Hcan) Hcl.
  unfold mainc, others. rewrite Hgs. cbn [code tail].
  rewrite Hcl in *. unfold b2z in *.
  destruct (Forall_shape_nonneg v rest Hr) as (Ndn & Nsn & Nce & Ncd & Narm).
  pose proof (total_nonneg _ _ Narm).
  pose proof (total_nonneg _ _ Nce).
  destruct Harm as [-> Hdn]; [lia|]. split; [reflexivity|].
  rewrite weigh_nil in Hce.
  apply Forall_lookup. intros j g Hj.
  apply (shape_over v).
  - exact (proj1 (Forall_lookup _ _) Hr j g Hj).
  - exact (total_zero dn rest j g Ndn Hdn Hj).
  - apply (total_zero ce rest j g Nce); [lia | exact Hj].
Qed.

Lemma over_measure f g : code g = [] /\ defers g = [] -> measure f g = 0.
Proof. intros [Hc Hd]. unfold measure. rewrite Hc, Hd. reflexivity. Qed.

Lemma occ_index_le_1 v ts w :
  Inv v w -> Hist v ts w ->
  forall i, occ i (done_ix (log w)) <= 1 /\ occ i (call_ix (log w)) <= 1 /\
            occ i (ret_ix (log w)) <= 1.
Proof.
  intros HI (_ & _ & _ & _ & _ & H6 & H7 & _) i.
  destruct i as [|j].
  - destruct (H7 0%nat) as (-> & -> & ->); [left; reflexivity | lia].
  - destruct (others w !! j) as [g|] eqn:Hj.
    + destruct (H6 j g Hj) as (Ha & Hb & Hc).
      pose proof (measure_nonneg cl_i g cl_i_nonneg).
      pose proof (measure_nonneg aw_i g aw_i_nonneg).
      assert (0 <= dn g).
      { apply measure_nonneg. intros x. induction x; simpl; try lia.
        destruct f; lia. }
      unfold cl, aw in *. assert (tk g <= 1) by (unfold tk; destruct (fn g); lia).
      lia.
    + apply lookup_ge_None in Hj.
      destruct (H7 (S j)) as (-> & -> & ->); [right; lia | lia].
Qed.

(** C5: what is delivered on the error channel (received so far, plus
    what still sits in the buffer) is always part of the non-nil errors
    the tasks returned, each goroutine gets at most one answer from its
    task, and once the channel is closed the two multisets are equal, the
    constructor has started every task and every goroutine is over. *)
Theorem errC_delivers_returned_errors v ts sched w :
  run sched (NewFixedTaskGroup v ts) = Some w ->
  (forall e, occ e (recvs (log w) ++ buf (errC (tg w))) <= occ e (rets (log w))) /\
  (forall i, occ i (ret_ix (log w)) <= 1) /\
  (closed (errC (tg w)) = true ->
     Permutation (recvs (log w) ++ buf (errC (tg w))) (rets (log w)) /\
     mainc w = [] /\
     Forall (fun g => code g = [] /\ defers g = []) (others w)).
Proof.
  intros Hrun. destruct (reach_inv _ _ _ _ Hrun) as [HI HH].
  pose proof (occ_index_le_1 v ts w HI HH) as Hix.
  destruct HH as (_ & _ & H3 & H4 & _).
  assert (Hd : forall e, occ e (recvs (log w) ++ buf (errC (tg w)))
                         = occ e (sends (log w))).
  { intros e. rewrite H3, !occ_app, occ_rev. lia. }
  split; [|split].
  - intros e. rewrite Hd. specialize (H4 e).
    pose proof (total_measure_nonneg (ps_i e) (others w) (ps_i_nonneg e)).
    unfold ps in H4. lia.
  - intros i. apply Hix.
  - intros Hcl. destruct (closed_all_over v w HI Hcl) as [Hm Hall].
    split; [|split; assumption].
    apply occ_Permutation. intros e. rewrite Hd. specialize (H4 e).
    rewrite total_all_zero in H4; [lia|].
    eapply Forall_impl; [exact Hall|]. intros g Hg. apply over_measure, Hg.
Qed.

Lemma errC_delivers_returned_errors_witness :
  Permutation (recvs (log world_two_errors) ++ buf (errC (tg world_two_errors)))
              (rets (log world_two_errors)).
Proof.
  destruct (errC_delivers_returned_errors V2 [7%nat; 8%nat] sched_two_errors
              world_two_errors eq_refl) as (_ & _ & H).
  exact (proj1 (H eq_refl)).
Defined.

(** The order of delivery is the order of the sends, which the schedule
    decides: the same two tasks deliver "task B" first in one run and
    "task A" first in another. *)
Example delivery_order_is_not_fixed :
  exists w1 w2,
    run sched_two_errors (NewFixedTaskGroup V2 [7%nat; 8%nat]) = Some w1 /\
    run sched_two_errors_swapped (NewFixedTaskGroup V2 [7%nat; 8%nat]) = Some w2 /\
    rev (recvs (log w1)) = [errB; errA] /\
    rev (recvs (log w2)) = [errA; errB].
Proof.
  eexists. eexists.
  split; [vm_compute; reflexivity|].
  split; [vm_compute; reflexivity|].
  split; reflexivity.
Qed.

(** C9: a task is never called more often than it occurs in the argument
    list and no goroutine calls twice; when the constructor has returned,
    the field [tasks] holds the arguments twice over ([tasks: tasks] in the
    literal, then one [append] per [startTask]) while exactly one goroutine
    per argument, in order, was started, followed by the watcher; and once
    [errC] is closed the calls made are the arguments, one call each. *)
Theorem each_task_called_once v ts sched w :
  run sched (NewFixedTaskGroup v ts) = Some w ->
  (forall t, occ t (calls (log w)) <= occ t ts) /\
  (forall i, occ i (call_ix (log w)) <= 1) /\
  (mainc w = [] ->
     tasks (tg w) = ts ++ ts /\
     map fn (others w) = map startTask_fn ts ++ [watcher_fn v]) /\
  (closed (errC (tg w)) = true -> Permutation (calls (log w)) ts).
Proof.
  intros Hrun. destruct (reach_inv _ _ _ _ Hrun) as [HI HH].
  pose proof (occ_index_le_1 v ts w HI HH) as Hix.
  destruct HH as (_ & H2 & _ & _ & H5 & _ & _ & _ & H9).
  split; [|split; [|split]].
  - intros t. specialize (H5 t).
    pose proof (weigh_nonneg (pc_i t) (mainc w) (pc_i_nonneg t)).
    pose proof (total_measure_nonneg (pc_i t) (others w) (pc_i_nonneg t)).
    unfold pc in H5. lia.
  - intros i. apply Hix.
  - intros Hm. rewrite Hm in H2, H9.
    rewrite appends_nil, app_nil_r in H2. rewrite gos_nil, app_nil_r in H9.
    split; assumption.
  - intros Hcl. destruct (closed_all_over v w HI Hcl) as [Hm Hall].
    apply occ_Permutation. intros t. specialize (H5 t).
    rewrite Hm, weigh_nil in H5.
    rewrite total_all_zero in H5; [lia|].
    eapply Forall_impl; [exact Hall|]. intros g Hg. apply over_measure, Hg.
Qed.

Lemma each_task_called_once_witness :
  Permutation (calls (log world_two_errors)) [7%nat; 8%nat].
Proof.
  destruct (each_task_called_once V2 [7%nat; 8%nat] sched_two_errors
              world_two_errors eq_refl) as (_ & _ & _ & H).
  exact (H eq_refl).
Defined.

(** ** The constructor *)

Lemma main_Append tg0 t k rest lg :
  exec (mkWorld tg0 (main_goroutine (Append t :: k) :: rest) false lg) (AGo 0)
  = Some (mkWorld (set_tasks (tasks tg0 ++ [t]) tg0) (main_goroutine k :: rest) false lg).
Proof. cbn. unfold apply_effect. cbn. rewrite app_nil_r. reflexivity. Qed.

Lemma main_WgAdd tg0 k rest lg :
  0 <= wg tg0 ->
  exec (mkWorld tg0 (main_goroutine (WgAdd 1 :: k) :: rest) false lg) (AGo 0)
  = Some (mkWorld (set_wg (wg tg0 + 1) tg0) (main_goroutine k :: rest) false lg).
Proof.
  intros H. unfold exec, step, prim, wg_Add. cbn.
  destruct (wg tg0 + 1 <? 0) eqn:E; [apply Z.ltb_lt in E; lia|].
  cbn. unfold apply_effect. cbn. rewrite app_nil_r. reflexivity.
Qed.

Lemma main_Go tg0 f k rest lg :
  exec (mkWorld tg0 (main_goroutine (Go f :: k) :: rest) false lg) (AGo 0)
  = Some (mkWorld tg0 (main_goroutine k :: rest ++ [spawn f]) false lg).
Proof. reflexivity. Qed.

Lemma constructor_runs v ts : forall tg0 rest lg,
  0 <= wg tg0 ->
  run (sched_constructor ts)
      (mkWorld tg0 (main_goroutine (NewFixedTaskGroup_body v ts) :: rest) false lg)
  = Some (constructed v ts
      (mkWorld tg0 (main_goroutine (NewFixedTaskGroup_body v ts) :: rest) false lg)).
Proof.
  unfold sched_constructor.
  induction ts as [|t ts IH]; intros tg0 rest lg Hwg.
  - cbn [length Nat.mul Nat.add repeat run]. rewrite body_nil, main_Go.
    unfold constructed. cbn. rewrite Z.add_0_r, !app_nil_r.
    destruct tg0; reflexivity.
  - replace (3 * length (t :: ts) + 1)%nat
      with (S (S (S (3 * length ts + 1)))) by (cbn [length]; lia).
    rewrite body_cons. cbn [repeat run].
    rewrite main_Append, main_WgAdd by exact Hwg. rewrite main_Go.
    rewrite IH by (cbn; lia).
    unfold constructed. cbn [tg gs log tail wg tasks set_wg set_tasks length map
                             errC doneC cancelC cancelOnce].
    do 2 f_equal; [unfold set_wg, set_tasks; cbn; f_equal|];
      solve [ lia | rewrite <- !app_assoc; reflexivity ].
Qed.

(** C6 (the code does otherwise): the constructor stores the arguments in
    the field [tasks] and then [startTask] appends every one of them once
    more.  For a non-empty argument list the field holds each argument
    twice when the constructor returns, so its length is not [N]. *)
Theorem tasks_field_holds_arguments_twice v t ts :
  exists w,
    run (sched_constructor (t :: ts)) (NewFixedTaskGroup v (t :: ts)) = Some w /\
    mainc w = [] /\
    tasks (tg w) = (t :: ts) ++ (t :: ts) /\
    length (tasks (tg w)) <> length (t :: ts).
Proof.
  eexists. split.
  - unfold NewFixedTaskGroup. apply (constructor_runs v (t :: ts)). cbn. lia.
  - unfold constructed, mainc. cbn [tg gs tasks set_wg set_tasks code].
    repeat split. rewrite length_app. cbn [length]. lia.
Qed.

Lemma constructed_quiet v ts :
  mainc (constructed v ts (NewFixedTaskGroup v ts)) = [] /\
  crashed (constructed v ts (NewFixedTaskGroup v ts)) = false /\
  Forall (fun g => panicking g = false) (gs (constructed v ts (NewFixedTaskGroup v ts))).
Proof.
  unfold constructed, mainc. cbn [gs code crashed NewFixedTaskGroup tail app].
  repeat split. apply Forall_cons. split; [reflexivity|].
  apply Forall_app. split; [|repeat constructor].
  apply Forall_map. apply Forall_forall. intros t _. reflexivity.
Qed.

Lemma constructor_step_total v w :
  Inv v w -> crashed w = false -> mainc w <> [] ->
  exists w', exec w (AGo 0) = Some w' /\ crashed w' = false.
Proof.
  intros (m & rest & Hgs & Hm & Hr & Hwg & _) Hcr Hne.
  pose proof (shape_main_facts v m Hm) as (F1 & F2 & _).
  destruct (Forall_shape_nonneg v rest Hr) as (Ndn & _).
  pose proof (total_nonneg _ _ Ndn).
  unfold mainc in Hne. rewrite Hgs in Hne. cbn in Hne.
  destruct w as [g l c lg]. cbn in *. subst l c.
  fold (main_goroutine m).
  destruct (shape_main_head v m) with (i := hd WgWait m) (k := tail m)
    as [[t E]|[E|[f E]]]; [exact Hm | destruct m; [congruence|reflexivity] | | |];
    destruct m as [|i k]; try congruence; cbn in E; subst i.
  - rewrite main_Append. eexists; split; reflexivity.
  - rewrite main_WgAdd by lia. eexists; split; reflexivity.
  - rewrite main_Go. eexists; split; reflexivity.
Qed.

(** C7: the constructor cannot fail.  Run alone it returns for every
    argument list, with no goroutine panicking; in any interleaving its next
    statement can always run and does not end the program; and for the
    empty list the watcher alone then closes the channels at once ([doneC]
    where the revision has one), no error was ever sent, and a receive
    from [ErrC()] gives "closed, no value". *)
Theorem NewFixedTaskGroup_never_fails :
  (forall v ts, exists w,
      run (sched_constructor ts) (NewFixedTaskGroup v ts) = Some w /\
      mainc w = [] /\ crashed w = false /\
      Forall (fun g => panicking g = false) (gs w)) /\
  (forall v ts sched w,
      run sched (NewFixedTaskGroup v ts) = Some w ->
      crashed w = false -> mainc w <> [] ->
      exists w', exec w (AGo 0) = Some w' /\ crashed w' = false) /\
  (forall v, exists w,
      run (sched_constructor [] ++ sched_watcher v 1) (NewFixedTaskGroup v []) = Some w /\
      closed (errC (tg w)) = true /\ buf (errC (tg w)) = [] /\
      doneC (tg w) = match v with V1 => None | V2 => Some true end /\
      sends (log w) = [] /\ crashed w = false /\
      recv (ErrC (tg w)) = Some (None, ErrC (tg w))).
Proof.
  split; [|split].
  - intros v ts. eexists. split.
    + unfold NewFixedTaskGroup. apply (constructor_runs v ts). cbn. lia.
    + apply constructed_quiet.
  - intros v ts sched w Hrun Hcr Hne.
    destruct (reach_inv _ _ _ _ Hrun) as [HI _].
    exact (constructor_step_total v w HI Hcr Hne).
  - intros v. destruct v; eexists; (split; [vm_compute; reflexivity|]);
      repeat split.
Qed.

Lemma NewFixedTaskGroup_never_fails_witness :
  exists w', exec (NewFixedTaskGroup V2 [7%nat]) (AGo 0) = Some w' /\ crashed w' = false.
Proof.
  destruct NewFixedTaskGroup_never_fails as (_ & H & _).
  apply (H V2 [7%nat] [] (NewFixedTaskGroup V2 [7%nat]) eq_refl eq_refl).
  discriminate.
Defined.

(** ** The order of the two closes *)

Lemma shape_cd_le_ce v g : shape v g -> cd g <= ce g.
Proof.
  destruct g as [f c d p]. unfold shape. cbn.
  destruct f as [|t|v']; [tauto| |].
  - destruct 1; measures; lia.
  - intros (-> & H & _). destruct H; measures; lia.
Qed.

(** In the revision with [doneC], whenever [errC] is closed [doneC] is
    closed already. *)
Lemma errC_closed_after_doneC ts sched w :
  run sched (NewFixedTaskGroup V2 ts) = Some w ->
  closed (errC (tg w)) = true -> doneC (tg w) = Some true.
Proof.
  intros Hrun Hcl. destruct (reach_inv _ _ _ _ Hrun) as [HI _].
  destruct HI as (m & rest & Hgs & Hm & Hr & Hwg & Hbuf & Hce & Hcd & Harm & Hcan).
  rewrite Hcl in *. unfold b2z in *.
  destruct (Forall_shape_nonneg V2 rest Hr) as (Ndn & Nsn & Nce & Ncd & Narm).
  pose proof (total_nonneg _ _ Narm). pose proof (total_nonneg _ _ Nce).
  pose proof (total_nonneg _ _ Ncd).
  destruct Harm as [-> _]; [lia|]. rewrite weigh_nil in *.
  assert (total cd rest <= total ce rest).
  { apply total_le. eapply Forall_impl; [exact Hr|]. apply shape_cd_le_ce. }
  destruct (doneC (tg w)) as [[]|]; [reflexivity | | discriminate].
  destruct Hcd as [_ Hcd]. lia.
Qed.

(** C1 (the code does otherwise): in the revision with [DoneC] the watcher
    runs [defer close(tg.errC); defer close(tg.doneC); tg.wg.Wait()], and
    deferred calls run last-in first-out, so [doneC] is closed first.
    With one task that returns an error there is a run in which a caller
    receives from [DoneC()] while [errC] is still open: nothing has closed
    it yet, one receive from [ErrC()] gets the error and the next blocks. *)
Theorem doneC_readable_before_errC_closed :
  exists w,
    run sched_done_first (NewFixedTaskGroup V2 [7%nat]) = Some w /\
    doneC (tg w) = Some true /\
    closed (errC (tg w)) = false /\
    head (log w) = Some EvDone /\
    occ EvCloseErrC (log w) = 0 /\
    exists w2, exec w ARecvErr = Some w2 /\ exec w2 ARecvErr = None.
Proof.
  eexists. split; [vm_compute; reflexivity|].
  repeat split. eexists. split; [vm_compute; reflexivity|]. reflexivity.
Qed.

(** ** Cancel *)

Lemma Cancel_again w :
  crashed w = false -> cancelOnce (tg w) = true -> exec w ACancel = Some w.
Proof.
  intros Hc Ho. destruct w as [g l c lg]. cbn in *. subst c.
  unfold exec, Cancel. cbn. rewrite Ho. reflexivity.
Qed.

Lemma exec_keeps_cancelOnce w a w' :
  exec w a = Some w' -> cancelOnce (tg w) = true -> cancelOnce (tg w') = true.
Proof.
  intros He Ho. unfold exec in He.
  destruct (crashed w); [discriminate|].
  destruct a as [i|i r| | |].
  - destruct (gs w !! i) as [g|]; [|discriminate].
    unfold step, prim, wg_Done, wg_Add, wg_Wait, send, close_errC, close_doneC in He.
    repeat (match type of He with
            | context [match ?x with _ => _ end] => innermost x
            end; cbn [option_map] in He);
      try discriminate He; injection He as <-; exact Ho.
  - destruct (gs w !! i) as [g|]; [|discriminate].
    unfold task_returns in He.
    repeat (match type of He with
            | context [match ?x with _ => _ end] => innermost x
            end; cbn [option_map] in He);
      try discriminate He; injection He as <-; exact Ho.
  - unfold Cancel in He. rewrite Ho in He. injection He as <-. exact Ho.
  - destruct (recv (ErrC (tg w))) as [[x c]|]; [|discriminate].
    injection He as <-. exact Ho.
  - destruct (DoneC (tg w)) as [[]|]; try discriminate.
    injection He as <-. exact Ho.
Qed.

Lemma run_keeps_cancelOnce s : forall w w',
  run s w = Some w' -> cancelOnce (tg w) = true -> cancelOnce (tg w') = true.
Proof.
  induction s as [|a s IH]; intros w w' Hr Ho; simpl in Hr.
  - injection Hr as <-. exact Ho.
  - destruct (exec w a) as [w1|] eqn:He; [|discriminate].
    exact (IH w1 w' Hr (exec_keeps_cancelOnce w a w1 He Ho)).
Qed.

Lemma later_cancels_do_nothing s : forall w w',
  cancelOnce (tg w) = true -> run s w = Some w' -> run (drop_cancels s) w = Some w'.
Proof.
  induction s as [|a s IH]; intros w w' Ho Hr; simpl in Hr; [exact Hr|].
  destruct (exec w a) as [w1|] eqn:He; [|discriminate].
  destruct a as [i|i r| | |]; cbn [drop_cancels List.filter is_cancel negb];
    fold (drop_cancels s);
    try (cbn [run]; rewrite He;
         exact (IH w1 w' (exec_keeps_cancelOnce w _ w1 He Ho) Hr)).
  assert (Hc : crashed w = false).
  { unfold exec in He. destruct (crashed w); [discriminate | reflexivity]. }
  rewrite (Cancel_again w Hc Ho) in He. injection He as <-.
  exact (IH w w' Ho Hr).
Qed.

Lemma repeat_Cancel w n :
  crashed w = false -> cancelOnce (tg w) = true -> run (repeat ACancel n) w = Some w.
Proof.
  intros Hc Ho. induction n as [|n IH]; [reflexivity|].
  cbn [repeat run]. rewrite (Cancel_again w Hc Ho). exact IH.
Qed.

(** C4: calling [Cancel()] is safe at any moment of any run, any number
    of times.  The call returns without panic; afterwards [cancelC] is
    closed and was closed exactly once in the whole run; calling again, any
    number of times, changes nothing at all; and in every continuation of
    the run the later calls of [Cancel()], wherever they are interleaved,
    can be taken out without changing the outcome, which still has exactly
    one close of [cancelC]. *)
Theorem Cancel_idempotent v ts sched w :
  run sched (NewFixedTaskGroup v ts) = Some w -> crashed w = false ->
  exists w1,
    exec w ACancel = Some w1 /\
    crashed w1 = false /\
    cancelC (tg w1) = true /\
    gs w1 = gs w /\
    occ EvCloseCancelC (log w1) = 1 /\
    (forall n, run (repeat ACancel n) w1 = Some w1) /\
    (forall s w2, run s w1 = Some w2 ->
       run (drop_cancels s) w1 = Some w2 /\
       cancelC (tg w2) = true /\
       occ EvCloseCancelC (log w2) = 1).
Proof.
  intros Hrun Hcr.
  destruct (exec w ACancel) as [w1|] eqn:He.
  2: { unfold exec in He. rewrite Hcr in He. destruct (Cancel (tg w)) as [[? ?] ?].
       discriminate. }
  assert (Hrun1 : run (sched ++ [ACancel]) (NewFixedTaskGroup v ts) = Some w1).
  { rewrite run_app, Hrun. cbn [run]. rewrite He. reflexivity. }
  destruct (reach_inv _ _ _ _ Hrun) as [HI _].
  destruct (reach_inv _ _ _ _ Hrun1) as [HI1 HH1].
  assert (Hfacts : crashed w1 = false /\ cancelOnce (tg w1) = true /\ gs w1 = gs w).
  { destruct HI as (_ & _ & _ & _ & _ & _ & _ & _ & _ & _ & Hcan).
    unfold exec in He. rewrite Hcr in He. unfold Cancel in He.
    destruct (cancelOnce (tg w)) eqn:Ho.
    - injection He as <-. cbn. auto.
    - rewrite Hcan in He. injection He as <-. cbn. auto. }
  destruct Hfacts as (Hcr1 & Ho1 & Hgs1).
  assert (Hc : forall w2, Inv v w2 -> Hist v ts w2 -> cancelOnce (tg w2) = true ->
               cancelC (tg w2) = true /\ occ EvCloseCancelC (log w2) = 1).
  { intros w2 HI2 HH2 Ho2.
    destruct HI2 as (_ & _ & _ & _ & _ & _ & _ & _ & _ & _ & Hcan).
    destruct HH2 as (_ & _ & _ & _ & _ & _ & _ & H8 & _).
    rewrite Hcan, Ho2 in *. split; [reflexivity | exact H8]. }
  exists w1. destruct (Hc w1 HI1 HH1 Ho1) as [Hcc Hocc].
  split; [reflexivity|]. split; [exact Hcr1|]. split; [exact Hcc|].
  split; [exact Hgs1|]. split; [exact Hocc|]. split.
  - intros n. apply repeat_Cancel; assumption.
  - intros s w2 Hs. split.
    + apply later_cancels_do_nothing; assumption.
    + assert (Hrun2 : run ((sched ++ [ACancel]) ++ s) (NewFixedTaskGroup v ts)
                      = Some w2).
      { rewrite run_app, Hrun1. assumption. }
      destruct (reach_inv _ _ _ _ Hrun2) as [HI2 HH2].
      exact (Hc w2 HI2 HH2 (run_keeps_cancelOnce s w1 w2 Hs Ho1)).
Qed.

Lemma Cancel_idempotent_witness :
  exists w1, exec world_one_error ACancel = Some w1 /\ cancelC (tg w1) = true.
Proof.
  destruct (Cancel_idempotent V1 [7%nat] sched_one_error world_one_error
              eq_refl eq_refl) as (w1 & H1 & _ & H2 & _).
  exists w1. split; assumption.
Defined.

(** ** The coordinator never looks at an error value *)

Section RenameProofs.
Variable f : error -> error.

Lemma rn_outcome_wg_Add n g :
  wg_Add n (rn_tg f g)
  = match wg_Add n g with Next g' => Next (rn_tg f g') | Blocked => Blocked | Panic => Panic end.
Proof. unfold wg_Add. cbn. destruct (wg g + n <? 0); reflexivity. Qed.

Lemma rn_outcome_wg_Wait g :
  wg_Wait (rn_tg f g)
  = match wg_Wait g with Next g' => Next (rn_tg f g') | Blocked => Blocked | Panic => Panic end.
Proof. unfold wg_Wait. cbn. destruct (wg g =? 0); reflexivity. Qed.

Lemma rn_outcome_send e g :
  send (f e) (rn_tg f g)
  = match send e g with Next g' => Next (rn_tg f g') | Blocked => Blocked | Panic => Panic end.
Proof.
  unfold send. cbn zeta.
  change (errC (rn_tg f g)) with (rn_chan f (errC g)).
  cbn [rn_chan closed buf cap].
  destruct (closed (errC g)); [reflexivity|].
  rewrite length_fmap. destruct (length (buf (errC g)) <? cap (errC g))%nat;
    [|reflexivity].
  unfold set_errC, rn_tg, rn_chan.
  cbn [tasks wg doneC errC cancelC cancelOnce cap buf closed].
  rewrite fmap_app. reflexivity.
Qed.

Lemma rn_outcome_close_errC g :
  close_errC (rn_tg f g)
  = match close_errC g with Next g' => Next (rn_tg f g') | Blocked => Blocked | Panic => Panic end.
Proof. unfold close_errC. cbn. destruct (closed (errC g)); reflexivity. Qed.

Lemma rn_outcome_close_doneC g :
  close_doneC (rn_tg f g)
  = match close_doneC g with Next g' => Next (rn_tg f g') | Blocked => Blocked | Panic => Panic end.
Proof. unfold close_doneC. cbn. destruct (doneC g) as [[]|]; reflexivity. Qed.

Lemma rn_prim i o o' ev tg0 g k :
  o' = match o with Next g' => Next (rn_tg f g') | Blocked => Blocked | Panic => Panic end ->
  prim i o' (rn_event f <$> ev) (rn_tg f tg0) (rn_go f g) (rn_instr f <$> k)
  = option_map (rn_effect f) (prim i o ev tg0 g k).
Proof. intros ->. destruct o; reflexivity. Qed.

Lemma rn_step i tg0 g :
  step i (rn_tg f tg0) (rn_go f g) = option_map (rn_effect f) (step i tg0 g).
Proof.
  destruct g as [h c d p]. unfold step.
  cbn [rn_go code defers panicking fn].
  destruct c as [|ins k]; cbn [fmap list_fmap].
  - destruct d as [|call ds]; cbn [fmap list_fmap]; [destruct p|]; reflexivity.
  - destruct ins as [c0|h0|t0|n| | |t0|t0|e| |]; cbn [rn_instr]; try reflexivity.
    + destruct h0 as [| |[]]; reflexivity.
    + apply (rn_prim i (wg_Add n tg0) _ []), rn_outcome_wg_Add.
    + apply (rn_prim i (wg_Done tg0) _ [EvWgDone i]), rn_outcome_wg_Add.
    + apply (rn_prim i (wg_Wait tg0) _ []), rn_outcome_wg_Wait.
    + apply (rn_prim i (send e tg0) _ [EvSend i e]), rn_outcome_send.
    + apply (rn_prim i (close_errC tg0) _ [EvCloseErrC]), rn_outcome_close_errC.
    + apply (rn_prim i (close_doneC tg0) _ [EvCloseDoneC]), rn_outcome_close_doneC.
Qed.

Lemma rn_task_returns i r tg0 g :
  task_returns i (rn_result f r) (rn_tg f tg0) (rn_go f g)
  = option_map (rn_effect f) (task_returns i r tg0 g).
Proof.
  destruct g as [h c d p]. unfold task_returns.
  cbn [rn_go code defers panicking fn].
  destruct c as [|ins k]; [reflexivity|].
  destruct ins; try reflexivity.
  destruct r as [[e|]|]; reflexivity.
Qed.

Lemma rn_apply_effect i eff w :
  apply_effect i (rn_effect f eff) (rn_world f w) = rn_world f (apply_effect i eff w).
Proof.
  unfold apply_effect, rn_world, rn_effect. cbn.
  rewrite !fmap_app, list_fmap_insert. reflexivity.
Qed.

Lemma rn_exec w a :
  exec (rn_world f w) (rn_action f a) = option_map (rn_world f) (exec w a).
Proof.
  unfold exec. cbn [rn_world crashed gs tg log].
  destruct (crashed w) eqn:Hc; [reflexivity|].
  destruct a as [i|i r| | |]; cbn [rn_action].
  - rewrite list_lookup_fmap. destruct (gs w !! i) as [g|]; [|reflexivity].
    cbn [fmap option_fmap option_map]. rewrite rn_step.
    destruct (step i (tg w) g) as [eff|]; [|reflexivity].
    cbn [option_map]. f_equal.
    rewrite <- rn_apply_effect. unfold rn_world. cbn. rewrite Hc. reflexivity.
  - rewrite list_lookup_fmap. destruct (gs w !! i) as [g|]; [|reflexivity].
    cbn [fmap option_fmap option_map]. rewrite rn_task_returns.
    destruct (task_returns i r (tg w) g) as [eff|]; [|reflexivity].
    cbn [option_map]. f_equal.
    rewrite <- rn_apply_effect. unfold rn_world. cbn. rewrite Hc. reflexivity.
  - unfold Cancel. cbn.
    destruct (cancelOnce (tg w)); [reflexivity|].
    destruct (cancelC (tg w)); reflexivity.
  - unfold recv, ErrC. cbn.
    destruct (buf (errC (tg w))) as [|e b]; cbn.
    + destruct (closed (errC (tg w))); reflexivity.
    + reflexivity.
  - unfold DoneC. cbn. destruct (doneC (tg w)) as [[]|]; reflexivity.
Qed.

Lemma rn_run s : forall w,
  run (rn_action f <$> s) (rn_world f w) = option_map (rn_world f) (run s w).
Proof.
  induction s as [|a s IH]; intros w; [reflexivity|].
  cbn [fmap list_fmap run]. rewrite rn_exec.
  destruct (exec w a) as [w1|]; [apply IH | reflexivity].
Qed.

Lemma rn_body v ts :
  rn_instr f <$> NewFixedTaskGroup_body v ts = NewFixedTaskGroup_body v ts.
Proof.
  induction ts as [|t ts IH]; [reflexivity|].
  rewrite body_cons. cbn [fmap list_fmap rn_instr].
  change (list_fmap instr instr (rn_instr f)) with (fmap (M := list) (rn_instr f)).
  rewrite IH. reflexivity.
Qed.

Lemma rn_NewFixedTaskGroup v ts :
  rn_world f (NewFixedTaskGroup v ts) = NewFixedTaskGroup v ts.
Proof.
  unfold rn_world, NewFixedTaskGroup, rn_go. cbn [gs tg log crashed code defers fn
    panicking fmap list_fmap].
  change (list_fmap instr instr (rn_instr f)) with (fmap (M := list) (rn_instr f)).
  rewrite rn_body. reflexivity.
Qed.

End RenameProofs.

(** C8: the coordinator treats [ErrTaskCancelled] like any other error.
    Take any run and put an arbitrary error [e] wherever the sentinel
    stands in what the tasks return: the very same schedule runs, blocks
    and ends exactly as before, and its outcome is the old one with [e] in
    the sentinel's place, so the same sends on [errC], the same
    [wg.Done()]s, the same closes. *)
Theorem sentinel_is_routed_like_any_error e v ts sched :
  run (rn_action (subst_sentinel e) <$> sched) (NewFixedTaskGroup v ts)
  = option_map (rn_world (subst_sentinel e)) (run sched (NewFixedTaskGroup v ts)).
Proof.
  rewrite <- (rn_NewFixedTaskGroup (subst_sentinel e) v ts) at 1.
  apply rn_run.
Qed.

(** ** The revision with [doneC] simulates the one without, and back *)

Lemma stutters_nonneg g : 0 <= stutters g.
Proof.
  unfold stutters. destruct (fn g) as [| |[]]; try lia.
  destruct (code g) as [|[[]| | | | | | | | | |] [|[[]| | | | | | | | | |] [|[] [|? ?]]]];
    lia.
Qed.

Lemma shared_cons ev l :
  shared (ev :: l)
  = match ev with EvCloseDoneC | EvDone => [] | _ => [ev] end ++ shared l.
Proof. reflexivity. Qed.

Arguments shared : simpl never.

Lemma shared_shared l : shared (shared l) = shared l.
Proof.
  induction l as [|ev l IH]; [reflexivity|].
  rewrite shared_cons.
  destruct ev; cbn [app]; rewrite ?shared_cons; cbn [app]; rewrite IH; reflexivity.
Qed.

Lemma view_old_world w : view (old_world w) = view w.
Proof. unfold view, old_world. cbn. rewrite shared_shared. reflexivity. Qed.

Lemma old_body ts :
  old_instr <$> NewFixedTaskGroup_body V2 ts = NewFixedTaskGroup_body V1 ts.
Proof.
  induction ts as [|t ts IH]; [reflexivity|].
  rewrite !body_cons. cbn [fmap list_fmap old_instr].
  change (list_fmap instr instr old_instr) with (fmap (M := list) old_instr).
  rewrite IH. reflexivity.
Qed.

Lemma old_NewFixedTaskGroup ts :
  old_world (NewFixedTaskGroup V2 ts) = NewFixedTaskGroup V1 ts.
Proof.
  unfold old_world, NewFixedTaskGroup, old_go.
  cbn [gs tg log crashed code defers fn panicking fmap list_fmap].
  change (list_fmap instr instr old_instr) with (fmap (M := list) old_instr).
  rewrite old_body. reflexivity.
Qed.

Lemma lookup_head {A} (x : A) l : (x :: l) !! 0%nat = Some x.
Proof. reflexivity. Qed.

Lemma lookup_tail {A} (x : A) l j : (x :: l) !! S j = l !! j.
Proof. reflexivity. Qed.

Ltac old_side :=
  try match goal with Hv : ?v = V2 |- _ => is_var v; subst v end;
  unfold old_world, exec;
  cbn [crashed gs tg log];
  rewrite ?fmap_cons, ?lookup_head, ?lookup_tail, ?list_lookup_fmap;
  repeat match goal with
  | Hj : _ = Some ?x |- context [?r !! ?j] =>
      replace (r !! j) with (Some x) by (symmetry; exact Hj)
  | Hj : _ = None |- context [?r !! ?j] =>
      replace (r !! j) with (@None goroutine) by (symmetry; exact Hj)
  end;
  unfold old_go, step, task_returns, prim, wg_Done, wg_Add, wg_Wait, send,
    close_errC, close_doneC, Cancel, recv, ErrC, DoneC;
  cbn [fmap option_fmap option_map fn code defers panicking old_watcher fst snd
       list_fmap old_instr wg errC doneC cancelC cancelOnce buf cap closed tasks
       set_doneC set_wg set_errC set_tasks set_cancel];
  repeat match goal with
  | H : Z.ltb ?a ?b = _ |- context [Z.ltb ?a ?b] => rewrite H
  | H : Z.eqb ?a ?b = _ |- context [Z.eqb ?a ?b] => rewrite H
  | H : Nat.ltb ?a ?b = _ |- context [Nat.ltb ?a ?b] => rewrite H
  | H : closed ?c = _ |- context [closed ?c] => rewrite H
  | H : buf ?c = _ |- context [buf ?c] => rewrite H
  | H : cancelOnce ?c = _ |- context [cancelOnce ?c] => rewrite H
  | H : cancelC ?c = _ |- context [cancelC ?c] => rewrite H
  end;
  cbn [option_map].

Ltac task_or_watcher Sj :=
  first [ destruct Sj as (-> & Sj & ->); destruct Sj | destruct Sj ].

Lemma sim_none v w a :
  v = V2 -> Inv v w -> exec w a = None -> exec (old_world w) a = None.
Proof.
  intros Hv HI He.
  destruct HI as (m & rest & Hgs & Hm & Hr & _).
  destruct w as [g l c lg]. cbn [gs tg crashed log] in *. subst l.
  unfold exec in He. cbn [gs tg crashed log] in He.
  destruct c; [reflexivity|].
  destruct a as [i|i r| | |].
  - destruct i as [|j]; cbn [lookup list_lookup] in He.
    + destruct Hm as [ts'|t ts'|t ts'|];
        [destruct ts' as [|t ts']; [rewrite body_nil in *|rewrite body_cons in *]|..];
        run_step He; old_side; try reflexivity.
    + destruct (rest !! j) as [gj|] eqn:Hj.
      * pose proof (proj1 (Forall_lookup _ _) Hr j gj Hj) as Sj.
        destruct gj as [f c d p]. unfold shape in Sj; cbn in Sj.
        destruct f as [|t|v']; [tauto| |];
          task_or_watcher Sj; try discriminate Hv;
          run_step He; old_side; try reflexivity.
      * old_side. reflexivity.
  - destruct i as [|j]; cbn [lookup list_lookup] in He.
    + destruct Hm as [ts'|t ts'|t ts'|];
        [destruct ts' as [|t ts']; [rewrite body_nil in *|rewrite body_cons in *]|..];
        run_step He; old_side; try reflexivity.
    + destruct (rest !! j) as [gj|] eqn:Hj.
      * pose proof (proj1 (Forall_lookup _ _) Hr j gj Hj) as Sj.
        destruct gj as [f c d p]. unfold shape in Sj; cbn in Sj.
        destruct f as [|t|v']; [tauto| |];
          task_or_watcher Sj; try discriminate Hv;
          run_step He; old_side; try reflexivity.
      * old_side. reflexivity.
  - run_step He.
  - run_step He; old_side; reflexivity.
  - old_side. reflexivity.
Qed.

Ltac old_commute :=
  old_side;
  unfold apply_effect, old_world;
  cbn [tg gs crashed log e_tg e_self e_spawn e_log e_crash];
  rewrite ?insert_head, ?insert_tail;
  rewrite ?fmap_app, ?fmap_cons, ?list_fmap_insert, ?shared_cons;
  unfold old_go, spawn, continue, panic;
  cbn [fn code defers panicking body old_watcher fst snd fmap list_fmap old_instr app];
  reflexivity.

Ltac old_same :=
  try match goal with Hv : ?v = V2 |- _ => is_var v; subst v end;
  unfold old_world, apply_effect;
  cbn [tg gs crashed log e_tg e_self e_spawn e_log e_crash];
  rewrite ?insert_tail, ?app_nil_r, ?fmap_cons, ?list_fmap_insert, ?shared_cons;
  cbn [app];
  try match goal with
  | Hj : _ = Some ?x |- context [<[?j := ?y]> (old_go <$> ?r)] =>
      rewrite (list_insert_id (old_go <$> r) j y)
        by (rewrite list_lookup_fmap;
            replace (r !! j) with (Some x) by (symmetry; exact Hj);
            reflexivity)
  end;
  reflexivity.

Ltac lag_drops :=
  unfold lag, others, apply_effect;
  cbn [tg gs crashed log e_tg e_self e_spawn e_log e_crash];
  rewrite ?insert_tail, ?app_nil_r; cbn [tail];
  match goal with
  | Hj : _ = Some ?x |- context [total stutters (<[?j := ?y]> ?r)] =>
      rewrite (total_insert stutters r j x y) by exact Hj
  end;
  unfold stutters, continue, panic; cbn [fn code]; lia.

Lemma sim_some v w a w' :
  v = V2 -> Inv v w -> exec w a = Some w' ->
  (old_world w' = old_world w /\ (a = ARecvDone \/ lag w' < lag w)) \/
  exec (old_world w) a = Some (old_world w').
Proof.
  intros Hv HI He. prepare HI He.
  step_cases He a ltac:(try discriminate Hv; run_step He; try solve [contra];
                        first [ solve [right; old_commute]
                              | left; split;
                                [ old_same
                                | first [ solve [left; reflexivity]
                                        | right; lag_drops ] ] ]).
Qed.

Lemma lag_nonneg w : 0 <= lag w.
Proof.
  unfold lag. apply total_nonneg. apply Forall_forall. intros g _.
  apply stutters_nonneg.
Qed.

Lemma old_world_no_DoneC w : exec (old_world w) ARecvDone = None.
Proof. unfold exec, old_world. cbn. destruct (crashed w); reflexivity. Qed.

(** Every step of the new revision is a step of the old one or leaves its
    reading as an old world unchanged. *)
Lemma new_to_old s : forall w w',
  Inv V2 w -> run s w = Some w' ->
  exists s1, run s1 (old_world w) = Some (old_world w').
Proof.
  induction s as [|a s IH]; intros w w' HI Hr; cbn [run] in Hr.
  - injection Hr as <-. exists []. reflexivity.
  - destruct (exec w a) as [wm|] eqn:He; [|discriminate].
    destruct (IH wm w' (Inv_exec V2 w a wm HI He) Hr) as [s1 Hs1].
    destruct (sim_some V2 w a wm eq_refl HI He) as [[Hsame _]|Hstep].
    + exists s1. rewrite <- Hsame. exact Hs1.
    + exists (a :: s1). cbn [run]. rewrite Hstep. exact Hs1.
Qed.

(** A step of the old revision is matched by the new one after the steps
    the old watcher does not have. *)
Lemma catch_up n : forall w a wm,
  lag w <= Z.of_nat n -> Inv V2 w -> exec (old_world w) a = Some wm ->
  exists sa w', run sa w = Some w' /\ old_world w' = wm /\ Inv V2 w'.
Proof.
  induction n as [|n IH]; intros w a wm Hlag HI Ho;
    (destruct (exec w a) as [w'|] eqn:He;
     [|rewrite (sim_none V2 w a eq_refl HI He) in Ho; discriminate]);
    pose proof (Inv_exec V2 w a w' HI He) as HI';
    (destruct (sim_some V2 w a w' eq_refl HI He) as [[Hsame [Ha|Hlt]]|Hstep];
     [ subst a; rewrite old_world_no_DoneC in Ho; discriminate
     |
     | rewrite Hstep in Ho; injection Ho as <-;
       exists [a], w'; cbn [run]; rewrite He; auto ]).
  - pose proof (lag_nonneg w'). lia.
  - rewrite <- Hsame in Ho.
    destruct (IH w' a wm ltac:(lia) HI' Ho) as (sa & w2 & Hrun & Hold & HI2).
    exists (a :: sa), w2. cbn [run]. rewrite He. auto.
Qed.

Lemma old_to_new s : forall w wm,
  Inv V2 w -> run s (old_world w) = Some wm ->
  exists s2 w', run s2 w = Some w' /\ old_world w' = wm.
Proof.
  induction s as [|a s IH]; intros w wm HI Hr; cbn [run] in Hr.
  - injection Hr as <-. exists [], w. split; reflexivity.
  - destruct (exec (old_world w) a) as [w1|] eqn:Ho; [|discriminate].
    pose proof (lag_nonneg w).
    destruct (catch_up (Z.to_nat (lag w)) w a w1 ltac:(lia) HI Ho)
      as (sa & wa & Hrun & Hold & HIa).
    rewrite <- Hold in Hr.
    destruct (IH wa wm HIa Hr) as (s2 & w' & Hrun2 & Hold2).
    exists (sa ++ s2), w'. rewrite run_app, Hrun. split; assumption.
Qed.

(** C10: the two revisions behave alike on what they share.  For the same
    argument list, whatever a run of the revision with [DoneC] shows of
    [tasks], the wait group, [errC] (capacity, buffer, closed or not),
    [cancelC] and the [sync.Once], of the program having died, and of the
    events so far other than those of [doneC] (calls and returns of tasks,
    sends, receives, [wg.Done()], closes of [errC] and [cancelC]), a run of
    the revision without it shows too, and the other way round. *)
Theorem revisions_agree_on_shared_surface ts :
  (forall s2 w2, run s2 (NewFixedTaskGroup V2 ts) = Some w2 ->
     exists s1 w1, run s1 (NewFixedTaskGroup V1 ts) = Some w1 /\ view w1 = view w2) /\
  (forall s1 w1, run s1 (NewFixedTaskGroup V1 ts) = Some w1 ->
     exists s2 w2, run s2 (NewFixedTaskGroup V2 ts) = Some w2 /\ view w2 = view w1).
Proof.
  split.
  - intros s2 w2 Hr.
    destruct (new_to_old s2 _ _ (Inv_init V2 ts) Hr) as [s1 Hs1].
    rewrite old_NewFixedTaskGroup in Hs1.
    exists s1, (old_world w2). split; [exact Hs1 | apply view_old_world].
  - intros s1 w1 Hr.
    rewrite <- old_NewFixedTaskGroup in Hr.
    destruct (old_to_new s1 _ _ (Inv_init V2 ts) Hr) as (s2 & w2 & Hr2 & Hold).
    exists s2, w2. split; [exact Hr2|]. rewrite <- Hold. symmetry.
    apply view_old_world.
Qed.

Lemma revisions_agree_on_shared_surface_witness :
  exists s1 w1,
    run s1 (NewFixedTaskGroup V1 [7%nat; 8%nat]) = Some w1 /\
    view w1 = view world_two_errors.
Proof.
  exact (proj1 (revisions_agree_on_shared_surface [7%nat; 8%nat])
               sched_two_errors world_two_errors eq_refl).
Defined.

(** * Further properties of the coordinator *)

(** ** Only a task can make the program panic *)

Arguments fault_ix : simpl never.

Lemma fault_ix_cons ev l :
  fault_ix (ev :: l) = match ev with EvRet i _ Fault => [i] | _ => [] end ++ fault_ix l.
Proof. reflexivity. Qed.

Lemma Safe_init v ts : Safe (NewFixedTaskGroup v ts).
Proof.
  split.
  - intros j g H. destruct j; discriminate.
  - discriminate.
Qed.

Lemma occ_pos_not_nil {A} `{EqDecision A} (x : A) l : 1 <= occ x l -> l <> [].
Proof. intros H ->. simpl in H. lia. Qed.

Ltac safe_index S1 :=
  let j' := fresh "j'" in let g' := fresh "g'" in
  let Hl := fresh "Hl" in let Hp := fresh "Hp" in
  intros j' g' Hl Hp;
  lazymatch type of Hl with
  | (<[?j := _]> ?r) !! _ = _ =>
      destruct (decide (j' = j)) as [->|?];
      [ match goal with
        | Hj : r !! j = Some _ |- _ =>
            rewrite list_lookup_insert_eq in Hl by (eapply lookup_lt_Some; exact Hj);
            injection Hl as <-; cbn [panicking continue panic] in Hp;
            try discriminate Hp;
            try pose proof (S1 j _ Hj Hp)
        end
      | rewrite list_lookup_insert_ne in Hl by congruence;
        pose proof (S1 j' g' Hl Hp) ]
  | (?r ++ [_]) !! _ = _ =>
      apply lookup_app_Some in Hl as [Hl | [? Hl]];
      [ pose proof (S1 j' g' Hl Hp)
      | destruct (j' - length r)%nat eqn:?; [|discriminate Hl];
        injection Hl as <-; discriminate Hp ]
  | _ => pose proof (S1 j' g' Hl Hp)
  end;
  rewrite ?fault_ix_cons; cbn [app]; rewrite ?occ_cons; unfold one;
  repeat case_decide; simplify_eq;
  repeat match goal with
  | |- context [occ ?x ?l] =>
      lazymatch goal with
      | _ : 0 <= occ x l |- _ => fail
      | _ => pose proof (occ_nonneg x l)
      end
  end;
  try lia.

Ltac safe_crash S1 S2 :=
  let Hc := fresh "Hc" in
  intros Hc; cbn in Hc; try discriminate Hc;
  rewrite ?fault_ix_cons; cbn [app];
  first [ exact (S2 Hc)
        | match goal with
          | Hj : _ !! ?j = Some ?g |- _ =>
              exact (occ_pos_not_nil _ _ (S1 j g Hj eq_refl))
          end ].

Ltac close_safe S1 S2 :=
  unfold Safe, apply_effect, others;
  cbn [tg gs crashed log e_tg e_self e_spawn e_log e_crash];
  rewrite ?insert_head, ?insert_tail;
  cbn [app tail]; rewrite ?app_nil_r;
  split; [safe_index S1 | safe_crash S1 S2].

Lemma Safe_exec v w a w' :
  Inv v w -> Safe w -> exec w a = Some w' -> Safe w'.
Proof.
  intros HI [S1 S2] He.
  unfold others in *.
  prepare HI He.
  cbn [tail] in *.
  step_cases He a ltac:(run_step He; try solve [contra]).
  all: solve [close_safe S1 S2].
Qed.

Lemma run_safe v s : forall w w',
  Inv v w -> Safe w -> run s w = Some w' -> Safe w'.
Proof.
  induction s as [|a s IH]; intros w w' HI HS Hr; cbn [run] in Hr.
  - injection Hr as <-. exact HS.
  - destruct (exec w a) as [w1|] eqn:He; [|discriminate].
    exact (IH w1 w' (Inv_exec v w a w1 HI He) (Safe_exec v w a w1 HI HS He) Hr).
Qed.

Lemma reach_safe v ts s w :
  run s (NewFixedTaskGroup v ts) = Some w -> Safe w.
Proof. apply (run_safe v); [apply Inv_init | apply Safe_init]. Qed.

(** What a step adds to the log. *)
Lemma exec_log w a w' :
  exec w a = Some w' ->
  exists ev, log w' = ev ++ log w /\
    (ev = [] \/ (exists i t, ev = [EvCall i t]) \/ (exists i e, ev = [EvSend i e]) \/
     (exists i, ev = [EvWgDone i]) \/ ev = [EvCloseErrC] \/ ev = [EvCloseDoneC] \/
     ev = [EvCloseCancelC] \/ (exists x, ev = [EvRecv x]) \/ ev = [EvDone] \/
     (exists i t r, a = ATaskRet i r /\ ev = [EvRet i t r])).
Proof.
  intros He. unfold exec in He.
  destruct (crashed w); [discriminate|].
  destruct a as [i|i r| | |].
  - destruct (gs w !! i) as [g|]; [|discriminate].
    unfold step, prim, wg_Done, wg_Add, wg_Wait, send, close_errC, close_doneC in He.
    repeat (match type of He with
            | context [match ?x with _ => _ end] => innermost x
            end; cbn [option_map] in He);
      try discriminate He; injection He as <-;
      unfold apply_effect; cbn [log e_log]; eexists; (split; [reflexivity|]);
      eauto 12.
  - destruct (gs w !! i) as [g|]; [|discriminate].
    unfold task_returns in He.
    repeat (match type of He with
            | context [match ?x with _ => _ end] => innermost x
            end; cbn [option_map] in He);
      try discriminate He; injection He as <-;
      unfold apply_effect; cbn [log e_log]; eexists; (split; [reflexivity|]);
      do 9 right; eauto.
  - unfold Cancel in He.
    destruct (cancelOnce (tg w)); [|destruct (cancelC (tg w))];
      injection He as <-; cbn [log];
      [ exists [] | exists [] | exists [EvCloseCancelC] ];
      (split; [reflexivity|]); eauto 12.
  - destruct (recv (ErrC (tg w))) as [[x c]|]; [|discriminate].
    injection He as <-. cbn [log]. exists [EvRecv x]. split; [reflexivity|].
    eauto 12.
  - destruct (DoneC (tg w)) as [[]|]; try discriminate.
    injection He as <-. cbn [log]. exists [EvDone]. split; [reflexivity|]. eauto 12.
Qed.

Lemma exec_fault_ix w a w' :
  exec w a = Some w' -> is_fault a = false ->
  fault_ix (log w') = fault_ix (log w).
Proof.
  intros He Hf. destruct (exec_log w a w' He) as (ev & -> & Hev).
  destruct Hev as [->|[(i & t & ->)|[(i & e & ->)|[(i & ->)|[->|[->|[->|[(x & ->)|[->|
    (i & t & r & -> & ->)]]]]]]]]]; try reflexivity.
  destruct r as [[e|]|]; [reflexivity | reflexivity | discriminate Hf].
Qed.

Lemma run_fault_ix s : forall w w',
  run s w = Some w' -> faultless s = true -> fault_ix (log w') = fault_ix (log w).
Proof.
  induction s as [|a s IH]; intros w w' Hr Hf; cbn [run] in Hr.
  - injection Hr as <-. reflexivity.
  - destruct (exec w a) as [w1|] eqn:He; [|discriminate].
    cbn [faultless forallb] in Hf. apply andb_prop in Hf as [Ha Hs].
    apply negb_true_iff in Ha.
    rewrite (IH w1 w' Hr Hs). exact (exec_fault_ix w a w1 He Ha).
Qed.

Lemma no_fault_no_panic v w :
  Inv v w -> Safe w -> fault_ix (log w) = [] ->
  crashed w = false /\ Forall (fun g => panicking g = false) (gs w).
Proof.
  intros HI [S1 S2] Hf.
  destruct (Inv_gs v w HI) as (m & rest & Hgs & Hmc & Hot & Hm & Hr).
  split.
  - destruct (crashed w); [|reflexivity]. destruct (S2 eq_refl Hf).
  - rewrite Hgs. apply Forall_cons. split; [reflexivity|].
    apply Forall_lookup. intros j g Hj. rewrite <- Hot in Hj.
    destruct (panicking g) eqn:Hp; [|reflexivity].
    specialize (S1 j g Hj Hp). rewrite Hf in S1. simpl in S1. lia.
Qed.

(** X2: the coordinator's own statements never panic.  In a run in which
    no task panics the program is alive and no goroutine is panicking:
    no send hit a closed channel, no channel was closed twice, the wait
    group never went negative, [Cancel()] never closed [cancelC] twice. *)
Theorem only_a_task_can_panic v ts sched w :
  run sched (NewFixedTaskGroup v ts) = Some w -> faultless sched = true ->
  crashed w = false /\ Forall (fun g => panicking g = false) (gs w).
Proof.
  intros Hrun Hf.
  destruct (reach_inv _ _ _ _ Hrun) as [HI _].
  apply (no_fault_no_panic v w HI (reach_safe _ _ _ _ Hrun)).
  exact (run_fault_ix sched _ _ Hrun Hf).
Qed.

Lemma only_a_task_can_panic_witness :
  crashed world_two_errors = false /\
  Forall (fun g => panicking g = false) (gs world_two_errors).
Proof.
  exact (only_a_task_can_panic V2 [7%nat; 8%nat] sched_two_errors world_two_errors
           eq_refl eq_refl).
Defined.

(** ** Cancellation happens only on request *)

Lemma exec_other_keeps_cancelC w a w' :
  exec w a = Some w' -> is_cancel a = false -> cancelC (tg w') = cancelC (tg w).
Proof.
  intros He Hn. unfold exec in He.
  destruct (crashed w); [discriminate|].
  destruct a as [i|i r| | |]; try discriminate Hn.
  - destruct (gs w !! i) as [g|]; [|discriminate].
    unfold step, prim, wg_Done, wg_Add, wg_Wait, send, close_errC, close_doneC in He.
    repeat (match type of He with
            | context [match ?x with _ => _ end] => innermost x
            end; cbn [option_map] in He);
      try discriminate He; injection He as <-; reflexivity.
  - destruct (gs w !! i) as [g|]; [|discriminate].
    unfold task_returns in He.
    repeat (match type of He with
            | context [match ?x with _ => _ end] => innermost x
            end; cbn [option_map] in He);
      try discriminate He; injection He as <-; reflexivity.
  - destruct (recv (ErrC (tg w))) as [[x c]|]; [|discriminate].
    injection He as <-. reflexivity.
  - destruct (DoneC (tg w)) as [[]|]; try discriminate.
    injection He as <-. reflexivity.
Qed.

Lemma exec_cancelC v w a w' :
  Inv v w -> exec w a = Some w' ->
  cancelC (tg w') = cancelC (tg w) || is_cancel a.
Proof.
  intros HI He. destruct (is_cancel a) eqn:Ha.
  - destruct a; try discriminate Ha.
    destruct HI as (_ & _ & _ & _ & _ & _ & _ & _ & _ & _ & Hcan).
    unfold exec in He. destruct (crashed w); [discriminate|].
    unfold Cancel in He. rewrite <- Hcan in He.
    destruct (cancelC (tg w)) eqn:Hc; injection He as <-; cbn; rewrite ?Hc; reflexivity.
  - rewrite orb_false_r. exact (exec_other_keeps_cancelC w a w' He Ha).
Qed.

Lemma run_cancelC v s : forall w w',
  Inv v w -> run s w = Some w' -> cancelC (tg w') = cancelC (tg w) || cancels s.
Proof.
  induction s as [|a s IH]; intros w w' HI Hr; cbn [run] in Hr.
  - injection Hr as <-. cbn. rewrite orb_false_r. reflexivity.
  - destruct (exec w a) as [w1|] eqn:He; [|discriminate].
    rewrite (IH w1 w' (Inv_exec v w a w1 HI He) Hr), (exec_cancelC v w a w1 HI He).
    cbn [cancels existsb]. rewrite orb_assoc. reflexivity.
Qed.

(** X3: [cancelC] is closed exactly when somebody has called [Cancel()]:
    the coordinator never cancels on its own, whatever the tasks return,
    and a call always takes effect. *)
Theorem cancelC_closed_iff_Cancel_called v ts sched w :
  run sched (NewFixedTaskGroup v ts) = Some w ->
  cancelC (tg w) = cancels sched.
Proof.
  intros Hrun. exact (run_cancelC v sched _ _ (Inv_init v ts) Hrun).
Qed.

Lemma cancelC_closed_iff_Cancel_called_witness :
  cancelC (tg world_two_errors) = cancels sched_two_errors.
Proof.
  exact (cancelC_closed_iff_Cancel_called V2 [7%nat; 8%nat] sched_two_errors
           world_two_errors eq_refl).
Defined.

(** ** What a caller learns from the channels *)

Lemma shape_done_quiet v g e t :
  shape v g -> dn g = 0 ->
  ps e g = 0 /\ pc t g = 0 /\
  (forall t', fn g = startTask_fn t' -> code g = [] /\ defers g = []).
Proof.
  destruct g as [f c d p]. unfold shape. cbn [fn code defers panicking].
  destruct f as [|t0|v']; [tauto| |].
  - destruct 1; intros Hd; measures; try lia; repeat split; reflexivity.
  - intros (-> & H & _) Hd.
    destruct H; (split; [reflexivity|]); (split; [reflexivity|]); discriminate.
Qed.

Lemma all_done_delivered v ts w :
  Inv v w -> Hist v ts w -> mainc w = [] -> total dn (others w) = 0 ->
  Forall (fun g => forall t, fn g = startTask_fn t -> code g = [] /\ defers g = [])
         (others w) /\
  Permutation (calls (log w)) ts /\
  Permutation (recvs (log w) ++ buf (errC (tg w))) (rets (log w)).
Proof.
  intros HI HH Hm Hdn.
  destruct (Inv_gs v w HI) as (m & rest & Hgs & Hmc & Hot & _ & Hr).
  rewrite Hot in *.
  destruct (Forall_shape_nonneg v rest Hr) as (Ndn & _).
  assert (Hq : forall e t, Forall (fun g => ps e g = 0 /\ pc t g = 0 /\
            (forall t', fn g = startTask_fn t' -> code g = [] /\ defers g = [])) rest).
  { intros e t. apply Forall_lookup. intros j g Hj.
    apply (shape_done_quiet v).
    - exact (proj1 (Forall_lookup _ _) Hr j g Hj).
    - exact (total_zero dn rest j g Ndn Hdn Hj). }
  destruct HH as (_ & _ & H3 & H4 & H5 & _). rewrite Hot in *.
  split; [|split].
  - eapply Forall_impl; [exact (Hq ErrTaskCancelled 0%nat)|]. intros g Hg. apply Hg.
  - apply occ_Permutation. intros t. specialize (H5 t).
    rewrite Hm, weigh_nil in H5.
    rewrite (total_all_zero (pc t) rest) in H5; [lia|].
    eapply Forall_impl; [exact (Hq ErrTaskCancelled t)|]. intros g Hg. apply Hg.
  - apply occ_Permutation. intros e. specialize (H4 e).
    rewrite (total_all_zero (ps e) rest) in H4.
    + rewrite <- H4, H3, !occ_app, occ_rev. lia.
    + eapply Forall_impl; [exact (Hq e 0%nat)|]. intros g Hg. apply Hg.
Qed.

Lemma shape_cd_zero_arm v g : shape v g -> cd g = 0 -> v = V2 -> ce g = arm g.
Proof.
  destruct g as [f c d p]. unfold shape. cbn.
  destruct f as [|t|v']; [tauto| |].
  - destruct 1; intros; measures; reflexivity.
  - intros (-> & H & _) Hc Hv. destruct H; try discriminate Hv; measures;
      try reflexivity; lia.
Qed.

Lemma doneC_closed_all_done w :
  Inv V2 w -> doneC (tg w) = Some true ->
  mainc w = [] /\ total dn (others w) = 0 /\ wg (tg w) = 0.
Proof.
  intros (m & rest & Hgs & Hm & Hr & Hwg & Hbuf & Hce & Hcd & Harm & Hcan) Hd.
  unfold mainc, others. rewrite Hgs. cbn [code tail].
  rewrite Hd in Hcd. destruct Hcd as [_ Hcd]. unfold b2z in Hcd.
  pose proof (shape_main_facts V2 m Hm) as (F1 & F2 & F3 & F4 & F5 & F6).
  destruct (Forall_shape_nonneg V2 rest Hr) as (Ndn & Nsn & Nce & Ncd & Narm).
  pose proof (total_nonneg _ _ Ncd).
  assert (Hcd0 : total cd rest = 0) by lia.
  assert (Hm0 : weigh cd_i m = 0) by lia.
  assert (Hmnil : m = []).
  { destruct Hm as [ts'|t ts'|t ts'|]; [| | |reflexivity];
      destruct (weigh_body V2 ts') as (_ & _ & _ & _ & Hb);
      rewrite ?weigh_cons in Hm0; cbn [cd_i] in Hm0; lia. }
  subst m. rewrite !weigh_nil in *.
  assert (Heq : total ce rest = total arm rest).
  { assert (Hall : Forall (fun g => ce g = arm g) rest).
    { apply Forall_lookup. intros j g Hj.
      apply (shape_cd_zero_arm V2); [|exact (total_zero cd rest j g Ncd Hcd0 Hj)|reflexivity].
      exact (proj1 (Forall_lookup _ _) Hr j g Hj). }
    clear -Hall. induction Hall as [|g l Hg _ IH]; [reflexivity|].
    rewrite !total_cons. lia. }
  destruct Harm as [_ Hdn]; [lia|].
  repeat split; [exact Hdn | lia].
Qed.

(** X1: in the revision with [DoneC], once [doneC] is closed the
    constructor has returned, the wait group is at zero, every goroutine of
    [startTask] has ended, each task was called exactly once, and every
    error a task returned has been sent: it was received or sits in the
    buffer of [errC]. *)
Theorem DoneC_readable_means_all_tasks_complete ts sched w :
  run sched (NewFixedTaskGroup V2 ts) = Some w ->
  doneC (tg w) = Some true ->
  mainc w = [] /\ wg (tg w) = 0 /\
  Forall (fun g => forall t, fn g = startTask_fn t -> code g = [] /\ defers g = [])
         (others w) /\
  Permutation (calls (log w)) ts /\
  Permutation (recvs (log w) ++ buf (errC (tg w))) (rets (log w)).
Proof.
  intros Hrun Hd. destruct (reach_inv _ _ _ _ Hrun) as [HI HH].
  destruct (doneC_closed_all_done w HI Hd) as (Hm & Hdn & Hwg).
  split; [exact Hm|]. split; [exact Hwg|].
  exact (all_done_delivered V2 ts w HI HH Hm Hdn).
Qed.

Lemma DoneC_readable_means_all_tasks_complete_witness :
  Permutation (calls (log world_two_errors)) [7%nat; 8%nat] /\
  wg (tg world_two_errors) = 0.
Proof.
  destruct (DoneC_readable_means_all_tasks_complete [7%nat; 8%nat] sched_two_errors
              world_two_errors eq_refl eq_refl) as (_ & H2 & _ & H4 & _).
  split; assumption.
Defined.

(** X8: errors come out of [errC] in the order in which they were sent,
    none lost and none twice: the errors sent so far, oldest first, are
    those received so far followed by those in the buffer. *)
Theorem errors_received_in_send_order v ts sched w :
  run sched (NewFixedTaskGroup v ts) = Some w ->
  rev (sends (log w)) = rev (recvs (log w)) ++ buf (errC (tg w)).
Proof.
  intros Hrun. destruct (reach_inv _ _ _ _ Hrun) as [_ HH].
  destruct HH as (_ & _ & H3 & _).
  rewrite H3, rev_app_distr, rev_involutive. reflexivity.
Qed.

Lemma errors_received_in_send_order_witness :
  rev (sends (log world_two_errors))
  = rev (recvs (log world_two_errors)) ++ buf (errC (tg world_two_errors)).
Proof.
  exact (errors_received_in_send_order V2 [7%nat; 8%nat] sched_two_errors
           world_two_errors eq_refl).
Defined.

(** X7: when a receive from [ErrC()] reports "closed, no value" (the end
    of a [for err := range tg.ErrC()] loop), the constructor has returned,
    every goroutine of the group has ended, each task was called exactly
    once, and the errors received are exactly the non-nil errors the tasks
    returned. *)
Theorem ErrC_reports_closed_only_when_all_is_over v ts sched w c :
  run sched (NewFixedTaskGroup v ts) = Some w ->
  recv (ErrC (tg w)) = Some (None, c) ->
  mainc w = [] /\
  Forall (fun g => code g = [] /\ defers g = []) (others w) /\
  Permutation (calls (log w)) ts /\
  Permutation (recvs (log w)) (rets (log w)).
Proof.
  intros Hrun Hrecv. destruct (reach_inv _ _ _ _ Hrun) as [HI HH].
  unfold recv, ErrC in Hrecv.
  destruct (buf (errC (tg w))) as [|e b] eqn:Hb; [|discriminate].
  destruct (closed (errC (tg w))) eqn:Hcl; [|discriminate].
  destruct (closed_all_over v w HI Hcl) as [Hm Hall].
  split; [exact Hm|]. split; [exact Hall|].
  assert (Hdn : total dn (others w) = 0).
  { apply total_all_zero. eapply Forall_impl; [exact Hall|].
    intros g Hg. apply over_measure, Hg. }
  destruct (all_done_delivered v ts w HI HH Hm Hdn) as (_ & Hc & Hp).
  split; [exact Hc|]. rewrite Hb, app_nil_r in Hp. exact Hp.
Qed.

Lemma ErrC_reports_closed_only_when_all_is_over_witness :
  Permutation (recvs (log world_two_errors)) (rets (log world_two_errors)).
Proof.
  destruct (ErrC_reports_closed_only_when_all_is_over V2 [7%nat; 8%nat]
              sched_two_errors world_two_errors _ eq_refl eq_refl)
    as (_ & _ & _ & H).
  exact H.
Defined.

(** X6: once [errC] is closed in a run in which no task panicked, nothing
    of the group can move any more: no goroutine has a step left and no
    task call is pending. *)
Theorem nothing_moves_after_errC_closed v ts sched w :
  run sched (NewFixedTaskGroup v ts) = Some w ->
  faultless sched = true ->
  closed (errC (tg w)) = true ->
  forall i r, exec w (AGo i) = None /\ exec w (ATaskRet i r) = None.
Proof.
  intros Hrun Hf Hcl i r. destruct (reach_inv _ _ _ _ Hrun) as [HI _].
  destruct (no_fault_no_panic v w HI (reach_safe _ _ _ _ Hrun)
              (run_fault_ix sched _ _ Hrun Hf)) as [Hcr Hpan].
  destruct (closed_all_over v w HI Hcl) as [Hm Hall].
  destruct (Inv_gs v w HI) as (m & rest & Hgs & Hmc & Hot & _ & _).
  assert (Hover : forall g, gs w !! i = Some g ->
            code g = [] /\ defers g = [] /\ panicking g = false).
  { intros g Hi.
    pose proof (proj1 (Forall_lookup _ _) Hpan i g Hi) as Hp.
    rewrite Hgs in Hi. destruct i as [|j]; cbn in Hi.
    - injection Hi as <-. cbn. rewrite <- Hmc, Hm. auto.
    - rewrite <- Hot in Hi.
      destruct (proj1 (Forall_lookup _ _) Hall j g Hi). auto. }
  unfold exec. rewrite Hcr.
  destruct (gs w !! i) as [g|]; [|split; reflexivity].
  destruct (Hover g eq_refl) as (Hc & Hd & Hp).
  unfold step, task_returns. rewrite Hc, Hd, Hp. split; reflexivity.
Qed.

Lemma nothing_moves_after_errC_closed_witness :
  exec world_two_errors (AGo 3) = None /\
  exec world_two_errors (ATaskRet 3 (Return None)) = None.
Proof.
  exact (nothing_moves_after_errC_closed V2 [7%nat; 8%nat] sched_two_errors
           world_two_errors eq_refl eq_refl eq_refl 3%nat (Return None)).
Defined.

(** ** The work that is left *)

Lemma cost_pos i : 1 <= cost i.
Proof.
  induction i as [c IH|f| | | | | | | | |]; cbn [cost]; try lia.
  destruct f as [| |[]]; cbn [cost]; lia.
Qed.

Lemma weigh_cost_nonneg l : 0 <= weigh cost l.
Proof.
  induction l as [|i l IH]; [rewrite weigh_nil; lia|].
  rewrite weigh_cons. pose proof (cost_pos i). lia.
Qed.

Lemma dcost_eq i : dcost i = 1 + cost i.
Proof. reflexivity. Qed.

Lemma weigh_dcost_nonneg l : 0 <= weigh dcost l.
Proof.
  induction l as [|i l IH]; [rewrite weigh_nil; lia|].
  rewrite weigh_cons, dcost_eq. pose proof (cost_pos i). lia.
Qed.

Lemma work_nonneg g : 0 <= work g.
Proof.
  unfold work. pose proof (weigh_cost_nonneg (code g)).
  pose proof (weigh_dcost_nonneg (defers g)). lia.
Qed.

Lemma work_left_nonneg w : 0 <= work_left w.
Proof.
  unfold work_left.
  assert (0 <= total work (gs w)).
  { apply total_nonneg. apply Forall_forall. intros g _. apply work_nonneg. }
  destruct (crashed w); lia.
Qed.

Lemma work_mk f c d p : work (mkGo f c d p) = weigh cost c + weigh dcost d.
Proof. reflexivity. Qed.

Ltac works :=
  unfold continue, panic, spawn;
  cbn [code defers fn panicking body e_self e_spawn e_crash];
  repeat (progress
    rewrite ?work_mk, ?total_cons, ?total_nil, ?weigh_cons, ?weigh_nil, ?dcost_eq);
  cbn [cost];
  repeat match goal with
  | |- context [weigh cost ?l] =>
      lazymatch goal with
      | _ : 0 <= weigh cost l |- _ => fail
      | _ => pose proof (weigh_cost_nonneg l)
      end
  end;
  lia.

(** A step of a goroutine uses up some of its work, also counting the
    goroutine it starts. *)
Lemma step_work i tg0 g eff :
  step i tg0 g = Some eff ->
  work (e_self eff) + total work (e_spawn eff) + (if e_crash eff then 0 else 1)
  <= work g.
Proof.
  destruct g as [f c d p]. unfold step, prim. cbn [code defers fn panicking].
  destruct c as [|ins k].
  - destruct d as [|c0 ds].
    + destruct p; [|discriminate]. intros [= <-]. works.
    + intros [= <-]. works.
  - destruct ins as [c0|h0|t0|n| | |t0|t0|e| |];
      try destruct h0 as [| |[]];
      try discriminate;
      try (intros [= <-]; works).
    + destruct (wg_Add n tg0); try discriminate; intros [= <-]; works.
    + destruct (wg_Done tg0); try discriminate; intros [= <-]; works.
    + destruct (wg_Wait tg0); try discriminate; intros [= <-]; works.
    + destruct (send e tg0); try discriminate; intros [= <-]; works.
    + destruct (close_errC tg0); try discriminate; intros [= <-]; works.
    + destruct (close_doneC tg0); try discriminate; intros [= <-]; works.
Qed.

Lemma task_returns_work i r tg0 g eff :
  task_returns i r tg0 g = Some eff ->
  work (e_self eff) + total work (e_spawn eff) + (if e_crash eff then 0 else 1)
  <= work g.
Proof.
  destruct g as [f c d p]. unfold task_returns. cbn [code].
  destruct c as [|[c0|h0|t0|n| | |t0|t0|e| |] k]; try discriminate.
  destruct r as [[e|]|]; intros [= <-]; works.
Qed.

Lemma apply_effect_work i eff w g :
  crashed w = false -> gs w !! i = Some g ->
  work (e_self eff) + total work (e_spawn eff) + (if e_crash eff then 0 else 1)
  <= work g ->
  work_left (apply_effect i eff w) + 1 <= work_left w.
Proof.
  intros Hcr Hi Hw. unfold work_left, apply_effect. cbn [gs crashed].
  rewrite Hcr, total_app, (total_insert work _ _ _ _ Hi). lia.
Qed.

(** Every step of a goroutine and every return of a task lowers
    [work_left]; calls from outside leave it or (a panic) lower it. *)
Lemma exec_work w a w' :
  exec w a = Some w' ->
  work_left w' + (if is_internal a then 1 else 0) <= work_left w.
Proof.
  unfold exec. destruct (crashed w) eqn:Hcr; [discriminate|].
  destruct a as [i|i r| | |]; cbn [is_internal].
  - destruct (gs w !! i) as [g|] eqn:Hi; [|discriminate].
    destruct (step i (tg w) g) as [eff|] eqn:Hs; [|discriminate].
    intros [= <-]. apply (apply_effect_work i eff w g Hcr Hi).
    exact (step_work _ _ _ _ Hs).
  - destruct (gs w !! i) as [g|] eqn:Hi; [|discriminate].
    destruct (task_returns i r (tg w) g) as [eff|] eqn:Hs; [|discriminate].
    intros [= <-]. apply (apply_effect_work i eff w g Hcr Hi).
    exact (task_returns_work _ _ _ _ _ Hs).
  - destruct (Cancel (tg w)) as [[tg' ev] p]. intros [= <-].
    unfold work_left. cbn [gs crashed]. rewrite Hcr. destruct p; lia.
  - destruct (recv (ErrC (tg w))) as [[x c]|]; [|discriminate]. intros [= <-].
    unfold work_left. cbn [gs crashed]. rewrite Hcr. lia.
  - destruct (DoneC (tg w)) as [[]|]; try discriminate. intros [= <-].
    unfold work_left. cbn [gs crashed]. rewrite Hcr. lia.
Qed.

Lemma run_work s : forall w w',
  run s w = Some w' -> work_left w' + internal_steps s <= work_left w.
Proof.
  induction s as [|a s IH]; intros w w' Hr; cbn [run] in Hr.
  - injection Hr as <-. unfold internal_steps. cbn. lia.
  - destruct (exec w a) as [w1|] eqn:He; [|discriminate].
    pose proof (exec_work w a w1 He) as H1.
    pose proof (IH w1 w' Hr) as H2.
    unfold internal_steps in *. cbn [List.filter].
    destruct (is_internal a); cbn [length]; lia.
Qed.

Lemma work_body v ts :
  weigh cost (NewFixedTaskGroup_body v ts)
  = 9 * Z.of_nat (length ts) + match v with V1 => 5 | V2 => 8 end.
Proof.
  induction ts as [|t ts IH].
  - rewrite body_nil. destruct v; reflexivity.
  - rewrite body_cons, !weigh_cons, IH. cbn [cost length]. lia.
Qed.

(** X9: the group does a bounded amount of work, in every run: with [N]
    tasks there are at most [9 * N + 9] steps of goroutines and returns of
    tasks ([9 * N + 6] without [DoneC]), however the goroutines are
    interleaved, whatever the tasks return and however often [Cancel()] and
    the channels are used from outside.  No goroutine of the package loops. *)
Theorem group_work_is_bounded v ts sched w :
  run sched (NewFixedTaskGroup v ts) = Some w ->
  internal_steps sched
  <= 9 * Z.of_nat (length ts) + match v with V1 => 6 | V2 => 9 end.
Proof.
  intros Hrun. pose proof (run_work sched _ _ Hrun) as H.
  pose proof (work_left_nonneg w) as H0.
  unfold work_left at 2 in H. cbn [gs crashed NewFixedTaskGroup] in H.
  rewrite total_cons, total_nil, work_mk, weigh_nil, work_body in H.
  destruct v; lia.
Qed.

Lemma group_work_is_bounded_witness :
  internal_steps sched_two_errors <= 9 * Z.of_nat (length [7%nat; 8%nat]) + 9.
Proof.
  exact (group_work_is_bounded V2 [7%nat; 8%nat] sched_two_errors
           world_two_errors eq_refl).
Defined.

(** ** Progress *)

Lemma total_pos_exists {A} (f : A -> Z) (l : list A) :
  0 < foldr (fun g a => f g + a) 0 l -> exists i x, l !! i = Some x /\ 0 < f x.
Proof.
  induction l as [|x l IH]; cbn [foldr]; [lia|]. intros H.
  destruct (Z_lt_le_dec 0 (f x)) as [Hx|Hx].
  - exists 0%nat, x. split; [reflexivity | exact Hx].
  - destruct IH as (i & y & Hi & Hy); [lia|]. exists (S i), y. split; assumption.
Qed.

Lemma close_errC_moves tg0 : close_errC tg0 <> Blocked.
Proof. unfold close_errC. destruct (closed (errC tg0)); discriminate. Qed.

Lemma close_doneC_moves tg0 : close_doneC tg0 <> Blocked.
Proof. unfold close_doneC. destruct (doneC tg0) as [[]|]; discriminate. Qed.

Lemma wg_Wait_moves tg0 : wg tg0 = 0 -> wg_Wait tg0 <> Blocked.
Proof. unfold wg_Wait. intros ->. discriminate. Qed.

Lemma send_moves e tg0 :
  closed (errC tg0) = false -> (length (buf (errC tg0)) < cap (errC tg0))%nat ->
  send e tg0 <> Blocked.
Proof.
  intros Hc Hl. unfold send. rewrite Hc.
  destruct (Nat.ltb_spec (length (buf (errC tg0))) (cap (errC tg0))); [discriminate | lia].
Qed.

Ltac moves :=
  unfold step; cbn [code defers fn panicking option_map];
  first [ eexists; reflexivity
        | apply fmap_is_Some, is_Some_prim; assumption ].

(** While [errC] is open and the program lives, some goroutine has a step
    to take, unless a task is still running. *)
Lemma next_step v w :
  Inv v w -> crashed w = false -> closed (errC (tg w)) = false ->
  (exists i, is_Some (exec w (AGo i))) \/
  (exists i g t k, gs w !! i = Some g /\ code g = Await t :: k).
Proof.
  intros HI Hcr Hcl.
  pose proof HI as (m & rest & Hgs & Hm & Hr & Hwg & Hbuf & Hce & Hcd & Harm & Hcan).
  destruct (Forall_shape_nonneg v rest Hr) as (Ndn & Nsn & Nce & Ncd & Narm).
  destruct m as [|i0 k0].
  2:{ left. exists 0%nat.
      destruct (constructor_step_total v w HI Hcr) as (w' & -> & _); [|eexists; reflexivity].
      unfold mainc. rewrite Hgs. discriminate. }
  rewrite !weigh_nil in *. rewrite Hcl in *. unfold b2z in *.
  assert (Hlook : forall j g, rest !! j = Some g -> gs w !! S j = Some g).
  { intros j g Hj. rewrite Hgs. exact Hj. }
  assert (Hsend : forall j g e k, rest !! j = Some g -> code g = Send e :: k ->
            send e (tg w) <> Blocked).
  { intros j g e k Hj Hc.
    destruct (send_ready v w j g e k HI) as [H1 H2]; [|exact Hc|exact (send_moves e _ H1 H2)].
    unfold others. rewrite Hgs. exact Hj. }
  pose proof (wg_Add_moves (-1) (tg w)) as Hdone. fold (wg_Done (tg w)) in Hdone.
  pose proof (close_errC_moves (tg w)) as Hce'.
  pose proof (close_doneC_moves (tg w)) as Hcd'.
  destruct (Z_lt_le_dec 0 (total dn rest)) as [Hpos|Hzero].
  - destruct (total_pos_exists dn rest Hpos) as (j & g & Hj & Hg).
    pose proof (proj1 (Forall_lookup _ _) Hr j g Hj) as Hs.
    pose proof (Hlook j g Hj) as Hi.
    specialize (Hsend j g).
    destruct g as [f c d p]. unfold shape in Hs. cbn [fn code defers panicking] in Hs.
    destruct f as [|t|v']; [contradiction| |].
    + destruct Hs as [| | |e|p|p|p].
      * left. exists (S j). rewrite (exec_AGo w _ _ Hcr Hi). moves.
      * left. exists (S j). rewrite (exec_AGo w _ _ Hcr Hi). moves.
      * right. exists (S j), (mkGo (startTask_fn t) [Await t] [WgDone] false), t, [].
        split; [exact Hi | reflexivity].
      * left. exists (S j). rewrite (exec_AGo w _ _ Hcr Hi).
        specialize (Hsend e [] Hj eq_refl). moves.
      * left. exists (S j). rewrite (exec_AGo w _ _ Hcr Hi). moves.
      * left. exists (S j). rewrite (exec_AGo w _ _ Hcr Hi). moves.
      * measures. lia.
    + destruct Hs as (-> & Hs & ->). destruct Hs; measures; lia.
  - pose proof (total_nonneg _ _ Ndn).
    assert (Hw0 : wg (tg w) = 0) by lia.
    pose proof (wg_Wait_moves (tg w) Hw0) as Hwait.
    assert (Hpos : 0 < total ce rest) by lia.
    destruct (total_pos_exists ce rest Hpos) as (j & g & Hj & Hg).
    pose proof (proj1 (Forall_lookup _ _) Hr j g Hj) as Hs.
    pose proof (Hlook j g Hj) as Hi.
    destruct g as [f c d p]. unfold shape in Hs. cbn [fn code defers panicking] in Hs.
    destruct f as [|t|v']; [contradiction| |].
    + destruct Hs; measures; lia.
    + destruct Hs as (-> & Hs & ->). left. exists (S j).
      rewrite (exec_AGo w _ _ Hcr Hi).
      destruct Hs; try solve [moves]; measures; lia.
Qed.

(** X4: the group cannot deadlock.  In every state a run can reach in
    which the program lives and [errC] is still open, either some goroutine
    of the package can take a step, or a task is still running: the package
    itself never waits for something that cannot come. *)
Theorem no_deadlock v ts sched w :
  run sched (NewFixedTaskGroup v ts) = Some w ->
  crashed w = false ->
  closed (errC (tg w)) = false ->
  (exists i, is_Some (exec w (AGo i))) \/
  (exists i g t k, gs w !! i = Some g /\ code g = Await t :: k).
Proof.
  intros Hrun Hcr Hcl. destruct (reach_inv _ _ _ _ Hrun) as [HI _].
  exact (next_step v w HI Hcr Hcl).
Qed.

Lemma no_deadlock_witness :
  (exists i, is_Some (exec (NewFixedTaskGroup V1 [7%nat]) (AGo i))) \/
  (exists i g t k, gs (NewFixedTaskGroup V1 [7%nat]) !! i = Some g /\ code g = Await t :: k).
Proof.
  exact (no_deadlock V1 [7%nat] [] (NewFixedTaskGroup V1 [7%nat]) eq_refl eq_refl eq_refl).
Defined.

(** ** Completion *)

Lemma quiet_step v w :
  Inv v w -> crashed w = false -> closed (errC (tg w)) = false ->
  exists a w1, is_quiet a = true /\ exec w a = Some w1.
Proof.
  intros HI Hcr Hcl.
  destruct (next_step v w HI Hcr Hcl) as [(i & w1 & He)|(i & g & t & k & Hi & Hc)].
  - exists (AGo i), w1. split; [reflexivity | exact He].
  - exists (ATaskRet i (Return None)). eexists. split; [reflexivity|].
    rewrite (exec_ATaskRet w i _ g Hcr Hi). unfold task_returns. rewrite Hc.
    reflexivity.
Qed.

Lemma quiet_not_fault a : is_quiet a = true -> is_fault a = false.
Proof. destruct a as [i|i [[e|]|]| | |]; cbn; congruence. Qed.

Lemma quiet_internal a : is_quiet a = true -> is_internal a = true.
Proof. destruct a as [i|i [[e|]|]| | |]; cbn; congruence. Qed.

Lemma completes v (n : nat) : forall w,
  work_left w <= Z.of_nat n ->
  Inv v w -> Safe w -> fault_ix (log w) = [] ->
  exists s w', forallb is_quiet s = true /\ run s w = Some w' /\
    closed (errC (tg w')) = true /\
    Inv v w' /\ Safe w' /\ fault_ix (log w') = [].
Proof.
  induction n as [|n IH]; intros w Hn HI HS Hf;
    (destruct (closed (errC (tg w))) eqn:Hcl;
     [exists [], w;
      exact (conj eq_refl (conj eq_refl (conj Hcl (conj HI (conj HS Hf)))))|]);
    destruct (no_fault_no_panic v w HI HS Hf) as [Hcr _];
    destruct (quiet_step v w HI Hcr Hcl) as (a & w1 & Hq & He);
    pose proof (exec_work w a w1 He) as Hw;
    rewrite (quiet_internal a Hq) in Hw;
    pose proof (work_left_nonneg w1).
  - lia.
  - destruct (IH w1) as (s & w' & Hs & Hr & Hc & HI' & HS' & Hf').
    + lia.
    + exact (Inv_exec v w a w1 HI He).
    + exact (Safe_exec v w a w1 HI HS He).
    + rewrite (exec_fault_ix w a w1 He (quiet_not_fault a Hq)). exact Hf.
    + exists (a :: s), w'. cbn [forallb run]. rewrite Hq, He.
      exact (conj Hs (conj Hr (conj Hc (conj HI' (conj HS' Hf'))))).
Qed.

Lemma closed_errC_closed_doneC w :
  Inv V2 w -> closed (errC (tg w)) = true -> doneC (tg w) = Some true.
Proof.
  intros HI Hcl. destruct (closed_all_over V2 w HI Hcl) as [Hm Hall].
  destruct HI as (m & rest & Hgs & _ & _ & _ & _ & _ & Hcd & _).
  unfold mainc, others in *. rewrite Hgs in *. cbn [code tail] in *. subst m.
  destruct (doneC (tg w)) as [b|]; [|discriminate].
  destruct Hcd as [_ Hcd]. rewrite weigh_nil in Hcd.
  rewrite (total_all_zero cd rest) in Hcd.
  - destruct b; [reflexivity | unfold b2z in Hcd; lia].
  - eapply Forall_impl; [exact Hall|]. intros g Hg. apply over_measure, Hg.
Qed.

(** X5: the group always comes to its end when the tasks do.  From every
    state of a run in which no task panicked, the goroutines of the package
    can go on by themselves (every task still running returning [nil])
    until [errC] is closed, and with it [doneC] where it exists, and the
    program has not died. *)
Theorem group_completes_when_tasks_return v ts sched w :
  run sched (NewFixedTaskGroup v ts) = Some w ->
  faultless sched = true ->
  exists s w',
    forallb is_quiet s = true /\
    run s w = Some w' /\
    closed (errC (tg w')) = true /\
    crashed w' = false /\
    (v = V2 -> doneC (tg w') = Some true).
Proof.
  intros Hrun Hfl. destruct (reach_inv _ _ _ _ Hrun) as [HI _].
  pose proof (run_fault_ix sched _ _ Hrun Hfl) as Hf. cbn in Hf.
  pose proof (work_left_nonneg w) as H0.
  destruct (completes v (Z.to_nat (work_left w)) w) as (s & w' & Hs & Hr & Hc & HI' & HS' & Hf');
    [lia | exact HI | exact (reach_safe _ _ _ _ Hrun) | exact Hf |].
  exists s, w'. split; [exact Hs|]. split; [exact Hr|]. split; [exact Hc|].
  split.
  - exact (proj1 (no_fault_no_panic v w' HI' HS' Hf')).
  - intros ->. exact (closed_errC_closed_doneC w' HI' Hc).
Qed.

Lemma group_completes_when_tasks_return_witness :
  exists s w',
    forallb is_quiet s = true /\
    run s (NewFixedTaskGroup V2 [7%nat]) = Some w' /\
    closed (errC (tg w')) = true /\
    crashed w' = false /\
    (V2 = V2 -> doneC (tg w') = Some true).
Proof.
  exact (group_completes_when_tasks_return V2 [7%nat] []
           (NewFixedTaskGroup V2 [7%nat]) eq_refl eq_refl).
Defined.

(** ** The goroutines of a group *)

(** X10: the constructor starts one goroutine per argument, in the order
    of the arguments, and then the one that closes [errC]: there are never
    more than [N + 2] goroutines (the caller included), and once the
    constructor has returned goroutine [i + 1] runs [startTask]'s function
    for the [i]-th task and the last one is the watcher.  Nothing else is
    ever started, whatever happens later. *)
Theorem one_goroutine_per_task v ts sched w :
  run sched (NewFixedTaskGroup v ts) = Some w ->
  (length (gs w) <= length ts + 2)%nat /\
  (mainc w = [] ->
   map fn (gs w) = NewFixedTaskGroup_fn :: map startTask_fn ts ++ [watcher_fn v]).
Proof.
  intros Hrun. destruct (reach_inv _ _ _ _ Hrun) as [HI HH].
  destruct (Inv_gs v w HI) as (m & rest & Hgs & Hmc & Hot & _ & _).
  destruct HH as (_ & _ & _ & _ & _ & _ & _ & _ & H9).
  rewrite Hot, Hmc in H9. rewrite Hgs, Hmc. cbn [length map fn]. split.
  - apply (f_equal (@length func)) in H9.
    rewrite !length_app, !length_map in H9. cbn [length] in H9. lia.
  - intros ->. cbn [gos flat_map] in H9. rewrite app_nil_r in H9.
    rewrite H9. reflexivity.
Qed.

Lemma one_goroutine_per_task_witness :
  (length (gs world_two_errors) <= length [7%nat; 8%nat] + 2)%nat.
Proof.
  exact (proj1 (one_goroutine_per_task V2 [7%nat; 8%nat] sched_two_errors
                  world_two_errors eq_refl)).
Defined.

(** ** The wait group *)

Lemma occ_In {A} `{EqDecision A} (x : A) l : In x l -> 1 <= occ x l.
Proof.
  induction l as [|y l IH]; cbn [occ In]; [tauto|].
  pose proof (occ_nonneg x l). unfold one.
  intros [->|Hin]; [rewrite decide_True by reflexivity; lia|].
  specialize (IH Hin). destruct (decide (x = y)); lia.
Qed.

Lemma in_range_split k n (l : list nat) :
  Z.of_nat (length (List.filter (in_range k (S n)) l))
  = occ k l + Z.of_nat (length (List.filter (in_range (S k) n) l)).
Proof.
  induction l as [|i l IH]; [reflexivity|].
  cbn [List.filter occ]. unfold one, in_range in *.
  destruct (decide (k = i)) as [<-|Hne].
  - replace (k <=? k)%nat with true by (symmetry; apply Nat.leb_le; lia).
    replace (k <? k + S n)%nat with true by (symmetry; apply Nat.ltb_lt; lia).
    replace (S k <=? k)%nat with false by (symmetry; apply Nat.leb_gt; lia).
    cbn [andb length]. lia.
  - destruct (Nat.leb_spec k i), (Nat.ltb_spec i (k + S n)),
             (Nat.leb_spec (S k) i), (Nat.ltb_spec i (S k + n));
      cbn [andb length]; lia.
Qed.

Lemma done_count (l : list nat) : forall rest k,
  (forall j g, rest !! j = Some g -> occ (k + j)%nat l + dn g = tk g) ->
  Z.of_nat (length (List.filter (in_range k (length rest)) l)) + total dn rest
  = total tk rest.
Proof.
  induction rest as [|g rest IH]; intros k H.
  - cbn [length]. rewrite !total_nil.
    replace (List.filter (in_range k 0) l) with (@nil nat); [reflexivity|].
    symmetry. clear H. induction l as [|i l IHl]; [reflexivity|].
    cbn [List.filter]. unfold in_range at 1.
    destruct (Nat.leb_spec k i), (Nat.ltb_spec i (k + 0)); cbn [andb];
      try exact IHl; exfalso; lia.
  - cbn [length]. rewrite in_range_split, !total_cons.
    pose proof (H 0%nat g eq_refl) as H0. rewrite Nat.add_0_r in H0.
    specialize (IH (S k)). rewrite <- IH; [lia|].
    intros j g' Hj. specialize (H (S j) g' Hj).
    replace (S k + j)%nat with (k + S j)%nat by lia. exact H.
Qed.

Lemma total_tk v ts : forall rest,
  map fn rest = map startTask_fn ts ++ [watcher_fn v] ->
  total tk rest = Z.of_nat (length ts).
Proof.
  induction ts as [|t ts IH]; intros [|g rest] H; try discriminate H.
  - cbn in H. injection H as Hg Hr. destruct rest; [|discriminate Hr].
    rewrite total_cons, total_nil. unfold tk. rewrite Hg. reflexivity.
  - cbn [map app] in H. injection H as Hg Hr.
    rewrite total_cons, (IH rest Hr). unfold tk. rewrite Hg. cbn [length]. lia.
Qed.

Lemma filter_all {A} (f : A -> bool) l :
  (forall x, In x l -> f x = true) -> List.filter f l = l.
Proof.
  induction l as [|x l IH]; intros H; [reflexivity|].
  cbn [List.filter]. rewrite (H x (or_introl eq_refl)). f_equal.
  apply IH. intros y Hy. apply H. right. exact Hy.
Qed.

(** X11: the counter of the wait group is never negative, and once the
    constructor has returned it is the number of tasks whose goroutine has
    not yet run [g.wg.Done()]: [N] minus the number of [Done()] calls made
    so far. *)
Theorem wg_counts_tasks_not_done v ts sched w :
  run sched (NewFixedTaskGroup v ts) = Some w ->
  0 <= wg (tg w) /\
  (mainc w = [] ->
   wg (tg w) = Z.of_nat (length ts) - Z.of_nat (length (done_ix (log w)))).
Proof.
  intros Hrun. destruct (reach_inv _ _ _ _ Hrun) as [HI HH].
  pose proof HI as (m & rest & Hgs & Hm & Hr & Hwg & _).
  pose proof (shape_main_facts v m Hm) as (F1 & F2 & _).
  destruct (Forall_shape_nonneg v rest Hr) as (Ndn & _).
  pose proof (total_nonneg _ _ Ndn) as Hn.
  split; [lia|].
  unfold mainc. rewrite Hgs. cbn [code]. intros ->.
  rewrite !weigh_nil in Hwg.
  destruct HH as (_ & _ & _ & _ & _ & H6 & H7 & _ & H9).
  unfold others, mainc in H6, H7, H9. rewrite Hgs in H6, H7, H9.
  cbn [tail code gos flat_map] in H6, H7, H9. rewrite app_nil_r in H9.
  pose proof (done_count (done_ix (log w)) rest 1) as Hc.
  rewrite (total_tk v ts rest H9) in Hc.
  rewrite filter_all in Hc.
  - rewrite Hwg. rewrite <- Hc; [lia|].
    intros j g Hj. exact (proj1 (H6 j g Hj)).
  - intros i Hin. pose proof (occ_In i _ Hin) as Hpos.
    unfold in_range.
    destruct (Nat.leb_spec 1 i); [destruct (Nat.ltb_spec i (1 + length rest))|];
      [reflexivity| |].
    + destruct (H7 i) as (Hz & _); [right; lia | lia].
    + destruct (H7 i) as (Hz & _); [left; lia | lia].
Qed.

Lemma wg_counts_tasks_not_done_witness :
  0 <= wg (tg world_two_errors).
Proof.
  exact (proj1 (wg_counts_tasks_not_done V2 [7%nat; 8%nat] sched_two_errors
                  world_two_errors eq_refl)).
Defined.

(** ** [Cancel()] and the rest of the group *)

Lemma step_uncancel i tg0 g :
  step i (set_cancel false false tg0) g = option_map uncancel_effect (step i tg0 g).
Proof.
  destruct g as [f c d p], tg0 as [ta n dc [cp bf cl] cc co].
  unfold step, prim, wg_Done, wg_Add, wg_Wait, send, close_errC, close_doneC,
    uncancel_effect, set_cancel, set_wg, set_errC, set_doneC, set_tasks, continue, panic.
  cbn [code defers fn panicking tasks wg doneC errC cancelC cancelOnce cap buf closed].
  destruct c as [|[c0|h0|t0|z| | |t0|t0|e| |] k]; cbn [option_map];
    try reflexivity.
  - destruct d; [destruct p|]; reflexivity.
  - destruct (n + z <? 0); reflexivity.
  - destruct (n + -1 <? 0); reflexivity.
  - destruct (n =? 0); reflexivity.
  - destruct cl; [reflexivity|]. destruct (length bf <? cp)%nat; reflexivity.
  - destruct cl; reflexivity.
  - destruct dc as [[]|]; reflexivity.
Qed.

Lemma task_returns_uncancel i r tg0 g :
  task_returns i r (set_cancel false false tg0) g
  = option_map uncancel_effect (task_returns i r tg0 g).
Proof.
  destruct g as [f c d p]. unfold task_returns. cbn [code].
  destruct c as [|[c0|h0|t0|z| | |t0|t0|e| |] k]; reflexivity.
Qed.

Lemma step_log_clean i tg0 g eff :
  step i tg0 g = Some eff ->
  List.filter (fun ev => negb (is_cancel_event ev)) (e_log eff) = e_log eff.
Proof.
  intros H. destruct g as [f c d p].
  unfold step, prim, wg_Done, wg_Add, wg_Wait, send, close_errC, close_doneC in H;
    cbn [code defers fn panicking] in H;
    repeat (match type of H with
            | context [match ?x with _ => _ end] => innermost x
            end);
    try discriminate H; injection H as <-; reflexivity.
Qed.

Lemma never_cancelled_effect i eff w :
  List.filter (fun ev => negb (is_cancel_event ev)) (e_log eff) = e_log eff ->
  never_cancelled (apply_effect i eff w)
  = apply_effect i (uncancel_effect eff) (never_cancelled w).
Proof.
  intros H. unfold never_cancelled, apply_effect, uncancel_effect.
  cbn [tg gs crashed log e_tg e_self e_spawn e_log e_crash].
  rewrite List.filter_app, H. reflexivity.
Qed.

(** One step with [Cancel()] and the same step without. *)
Lemma exec_never_cancelled v w a w' :
  Inv v w -> exec w a = Some w' ->
  if is_cancel a then never_cancelled w' = never_cancelled w
  else exec (never_cancelled w) a = Some (never_cancelled w').
Proof.
  intros HI He. unfold exec in *. cbn [never_cancelled crashed gs tg].
  destruct (crashed w) eqn:Hcr; [discriminate|].
  destruct a as [i|i r| | |]; cbn [is_cancel].
  - destruct (gs w !! i) as [g|]; [|discriminate].
    rewrite step_uncancel.
    destruct (step i (tg w) g) as [eff|] eqn:Hs; [|discriminate].
    injection He as <-. cbn [option_map]. f_equal. symmetry.
    apply never_cancelled_effect. exact (step_log_clean _ _ _ _ Hs).
  - destruct (gs w !! i) as [g|]; [|discriminate].
    rewrite task_returns_uncancel.
    destruct (task_returns i r (tg w) g) as [eff|] eqn:Hs; [|discriminate].
    injection He as <-. cbn [option_map]. f_equal. symmetry.
    apply never_cancelled_effect.
    unfold task_returns in Hs. destruct (code g) as [|[] k]; try discriminate Hs.
    injection Hs as <-. reflexivity.
  - destruct HI as (_ & _ & _ & _ & _ & _ & _ & _ & _ & _ & Hcan).
    unfold Cancel in He. rewrite <- Hcan in He.
    unfold never_cancelled.
    destruct (cancelC (tg w)) eqn:Hc; injection He as <-;
      cbn [tg gs crashed log app List.filter is_cancel_event negb];
      rewrite ?Hcr; reflexivity.
  - unfold ErrC in *. cbn [set_cancel errC].
    destruct (recv (errC (tg w))) as [[x c]|]; [|discriminate].
    injection He as <-. reflexivity.
  - unfold DoneC in *. cbn [set_cancel doneC].
    destruct (doneC (tg w)) as [[]|]; try discriminate.
    injection He as <-. reflexivity.
Qed.

Lemma run_never_cancelled v s : forall w w',
  Inv v w -> run s w = Some w' ->
  run (drop_cancels s) (never_cancelled w) = Some (never_cancelled w').
Proof.
  induction s as [|a s IH]; intros w w' HI Hr; cbn [run] in Hr.
  - injection Hr as <-. reflexivity.
  - destruct (exec w a) as [w1|] eqn:He; [|discriminate].
    pose proof (exec_never_cancelled v w a w1 HI He) as H1.
    pose proof (IH w1 w' (Inv_exec v w a w1 HI He) Hr) as H2.
    unfold drop_cancels in *. cbn [List.filter].
    destruct (is_cancel a); cbn [negb].
    + rewrite <- H1. exact H2.
    + cbn [run]. rewrite H1. exact H2.
Qed.

(** X12: [Cancel()] does nothing but close [cancelC].  Take the calls of
    [Cancel()] out of any run, the tasks answering as before: what is left
    is again a run, and it ends in the same state but for [cancelC] and
    [cancelOnce]: the same goroutines at the same statements, the same
    [wg], [errC], [doneC] and [tasks], the same events but for the close of
    [cancelC].  The package never reads [cancelC] itself: stopping is left
    to the tasks. *)
Theorem Cancel_only_closes_cancelC v ts sched w :
  run sched (NewFixedTaskGroup v ts) = Some w ->
  run (drop_cancels sched) (NewFixedTaskGroup v ts) = Some (never_cancelled w).
Proof.
  intros Hrun.
  exact (run_never_cancelled v sched _ _ (Inv_init v ts) Hrun).
Qed.

Lemma Cancel_only_closes_cancelC_witness :
  run (drop_cancels sched_cancel_twice) (NewFixedTaskGroup V1 [7%nat])
  = Some (never_cancelled world_cancel_twice).
Proof.
  exact (Cancel_only_closes_cancelC V1 [7%nat] sched_cancel_twice
           world_cancel_twice eq_refl).
Defined.
